(** * ade: template resolution engine (src/ade/manager/template.py) and
      filesystem manager (src/ade/manager/filesystem.py)

    A shallow embedding of the two manager classes, in the order of the
    source, followed by the properties of the specification. *)

From Stdlib Require Import String Ascii List ZArith Lia Bool Sorted Permutation.
From stdpp Require Import base option list strings gmap.

Local Open Scope string_scope.
Local Open Scope list_scope.
Set Warnings "-register-all".

(** ** Python values and the built-ins the two modules call *)

(** Exceptions the modelled code can raise.  [RecursionLimit] is the
    interpreter's "maximum recursion depth exceeded": every recursive method
    below takes the remaining depth as its first argument. *)
Inductive exn : Type :=
| KeyError (what : string)
| IndexError
| ValueError
| TypeError
| AttributeError
| ReError
| RecursionLimit.

Inductive result (A : Type) : Type :=
| Ok (a : A)
| Raise (e : exn).
Arguments Ok {A} a.
Arguments Raise {A} e.

#[global] Instance result_ret : MRet result := fun A a => Ok a.
#[global] Instance result_bind : MBind result := fun A B f m =>
  match m with
  | Ok a => f a
  | Raise e => Raise e
  end.

(** A value stored under a dictionary key that holds either an int or a str
    (the 'permission' key: [oct(...)] is a str, the default is an int). *)
Inductive pyval : Type :=
| PyInt (z : Z)
| PyStr (s : string).

Definition ascii_eqb (a b : ascii) : bool := Ascii.eqb a b.

(** [sub in s] for strings. *)
Fixpoint str_in (sub s : string) : bool :=
  String.prefix sub s ||
  match s with
  | EmptyString => false
  | String _ s' => str_in sub s'
  end.

(** [c in s] for a one-character string [c]. *)
Fixpoint char_in (c : ascii) (s : string) : bool :=
  match s with
  | EmptyString => false
  | String a s' => ascii_eqb a c || char_in c s'
  end.

(** [s.replace(c, new)] for a one-character string [c]. *)
Fixpoint str_replace (c : ascii) (new : string) (s : string) : string :=
  match s with
  | EmptyString => EmptyString
  | String a s' =>
      if ascii_eqb a c then new ++ str_replace c new s'
      else String a (str_replace c new s')
  end.

(** [s.lower()] on a byte string in the C locale: A-Z to a-z. *)
Definition ascii_lower (a : ascii) : ascii :=
  let n := nat_of_ascii a in
  if (65 <=? n)%nat && (n <=? 90)%nat then ascii_of_nat (n + 32) else a.

Fixpoint lower (s : string) : string :=
  match s with
  | EmptyString => EmptyString
  | String a s' => String (ascii_lower a) (lower s')
  end.

(** [s.startswith(p)]. *)
Definition startswith (s p : string) : bool := String.prefix p s.

(** [sep.join(l)]. *)
Definition join (sep : string) (l : list string) : string := String.concat sep l.

(** [s[1:-1]]. *)
Definition slice_1_m1 (s : string) : string :=
  String.substring 1 (String.length s - 2) s.

(** [s.split(c)] for a one-character separator: [cur] is the piece being
    read. *)
Fixpoint split_go (c : ascii) (cur : string) (s : string) : list string :=
  match s with
  | EmptyString => [cur]
  | String a s' =>
      if ascii_eqb a c then cur :: split_go c EmptyString s'
      else split_go c (cur ++ String a EmptyString) s'
  end.

Definition split (c : ascii) (s : string) : list string :=
  split_go c EmptyString s.

(** Order of Python 2 on [str] (bytewise lexicographic) and on the tuples
    [(bool, str)] used as sort keys ([False < True]). *)
Definition str_le (a b : string) : bool := String.leb a b.

Definition key_le (k1 k2 : bool * string) : bool :=
  match fst k1, fst k2 with
  | false, true => true
  | true, false => false
  | _, _ => str_le (snd k1) (snd k2)
  end.

(** [sorted(l, key=...)] is stable; it works on the list decorated with the
    keys, computed once per element in list order.  Any stable sort returns
    the list that stable insertion returns. *)
Section Sorted.
Context {K A : Type} (le : K -> K -> bool).

Fixpoint insert_by (x : K * A) (l : list (K * A)) : list (K * A) :=
  match l with
  | [] => [x]
  | y :: l' => if le (fst x) (fst y) then x :: y :: l' else y :: insert_by x l'
  end.

Definition sort_decorated (l : list (K * A)) : list (K * A) :=
  foldr insert_by [] l.

(** The order of the decorated list. *)
Definition le_fst (p q : K * A) : Prop := le (fst p) (fst q) = true.

Definition sorted (key : A -> result K) (l : list A) : result (list A) :=
  keyed ← mapM (fun x => k ← key x; mret (k, x)) l;
  mret (map snd (sort_decorated keyed)).
End Sorted.

(** ** template.py: the data *)

(** A fragment is a dict; 'name' is always set by the register, the other
    keys are read with [.get] and may be absent ('children' is absent on
    files, 'content' on folders). *)
Inductive node : Type := Node {
  name : string;
  permission : option pyval;
  folder : option bool;
  content : option string;
  children : option (list node)
}.

Definition set_children (n : node) (ch : list node) : node :=
  Node (name n) (permission n) (folder n) (content n) (Some ch).

(** [n.get('children', [])]. *)
Definition get_children (n : node) : list node := default [] (children n).

Definition reference_indicator : ascii := "@"%char.
Definition variable_indicator : ascii := "+"%char.

(** The nested [sanitize] of [__init__] and of [resolve_template]
    (lines 47-57 and 291-301). *)
Definition sanitize (var : option string) : option string :=
  match var with
  | None => None
  | Some EmptyString => None
  | Some var =>
      let var := if char_in "@" var then str_replace "@" "" var else var in
      let var := if char_in "+" var then str_replace "+" "" var else var in
      Some var
  end.

(** The sort key [(not(x.get('folder')), sanitize(x.get('name')).lower())];
    [.lower()] on [None] raises. *)
Definition py_not (b : option bool) : bool :=
  match b with
  | Some true => false
  | _ => true
  end.

Definition sort_key (x : node) : result (bool * string) :=
  match sanitize (Some (name x)) with
  | None => Raise AttributeError
  | Some s => Ok (py_not (folder x), lower s)
  end.

(** [sort_children] (lines 59-67 and 303-308), in place in the source. *)
Fixpoint sort_children (depth : nat) (chunk : node) : result node :=
  match depth with
  | O => Raise RecursionLimit
  | S depth =>
      if (0 <? length (get_children chunk))%nat then
        sorted_children ← sorted key_le sort_key (get_children chunk);
        done_children ← mapM (sort_children depth) sorted_children;
        mret (set_children chunk done_children)
      else mret chunk
  end.

(** [_get_in_register] (lines 236-266): the first item of that name,
    deep-copied. *)
Fixpoint _get_in_register (register : list node) (nm : string) : result node :=
  match register with
  | [] => Raise (KeyError ("template " ++ nm ++ " not found in register"))
  | item :: register' =>
      if negb (String.eqb (name item) nm) then _get_in_register register' nm
      else Ok item
  end.

(** [l.pop(i)] and [l.insert(i, x)] for [i] in range. *)
Definition list_pop {A} (i : nat) (l : list A) : list A := delete i l.
Definition list_insert_at {A} (i : nat) (x : A) (l : list A) : list A :=
  take i l ++ x :: drop i l.

(** [fragment['children'].extend(removed['children'])], guarded by
    [if removed.get('children')]. *)
Definition extend_children (fragment removed : node) : result node :=
  match children removed with
  | None | Some [] => Ok fragment
  | Some (x :: l) =>
      match children fragment with
      | None => Raise (KeyError "children")
      | Some own => Ok (set_children fragment (own ++ x :: l))
      end
  end.

(** [for index, entry in enumerate(l)] over a list the body rewrites without
    changing its length: [n] iterations are left. *)
Fixpoint for_enumerate {A} (body : nat -> A -> list A -> result (list A))
    (n : nat) (index : nat) (l : list A) : result (list A) :=
  match n with
  | O => Ok l
  | S n' =>
      match l !! index with
      | None => Ok l
      | Some entry =>
          l' ← body index entry l;
          for_enumerate body n' (S index) l'
      end
  end.

(** [_resolve_template] (lines 314-339).  The source rewrites [schema] in
    place; the rewritten schema is returned. *)
Fixpoint _resolve_template (depth : nat) (register : list node) (schema : node)
    : result node :=
  match depth with
  | O => Raise RecursionLimit
  | S depth =>
      match children schema with
      | None => Ok schema
      | Some ch =>
          let body index entry ch :=
            let item := name entry in
            if char_in reference_indicator item then
              let removed := entry in
              let ch := list_pop index ch in
              fragment ← _get_in_register register (name removed);
              fragment ← extend_children fragment removed;
              let ch := list_insert_at index fragment ch in
              fragment ← _resolve_template depth register fragment;
              mret (<[index := fragment]> ch)
            else
              entry ← _resolve_template depth register entry;
              mret (<[index := entry]> ch) in
          ch ← for_enumerate body (length ch) 0 ch;
          mret (set_children schema ch)
      end
  end.

(** [resolve_template] (lines 268-312). *)
Definition resolve_template (depth : nat) (register : list node) (nm : string)
    : result node :=
  root ← _get_in_register register nm;
  root ← _resolve_template depth register root;
  sort_children depth root.

(** [resolve] and [_resolve] (lines 160-234): the flattened entries. *)
Inductive path_value : Type :=
| Segments (l : list string)
| Joined (s : string).

Record entry : Type := Entry {
  e_path : path_value;
  e_permission : pyval;
  e_folder : bool;
  e_content : string
}.

Definition new_entry (current_path : list string) (n : node) : entry :=
  Entry (Segments current_path)
        (default (PyInt 777) (permission n))
        (default true (folder n))
        (default "" (content n)).

Fixpoint _resolve (schema : node) (path : list string) {struct schema}
    : list entry :=
  match schema with
  | Node _ _ _ _ None => []
  | Node _ _ _ _ (Some ch) =>
      flat_map (fun entry =>
        let nm := str_replace reference_indicator "" (name entry) in
        let path := path ++ [nm] in
        new_entry path entry :: _resolve entry path) ch
  end.

Definition resolve (schema : node) : list entry :=
  let root_name := str_replace reference_indicator "" (name schema) in
  let root := new_entry [root_name] schema in
  let paths := [root_name] in
  let result_paths := _resolve schema paths in
  root :: result_paths.

(** Iterating a 'path' value: a list gives its items, a str its
    characters. *)
Fixpoint chars (s : string) : list string :=
  match s with
  | EmptyString => []
  | String a s' => String a EmptyString :: chars s'
  end.

Definition py_iter (p : path_value) : list string :=
  match p with
  | Segments l => l
  | Joined s => chars s
  end.

(** [find_path] (lines 80-158). *)
Definition find_path_sanitize (var : option string) : option string :=
  match var with
  | None => None
  | Some EmptyString => None
  | Some var =>
      let var := if char_in "+" var then str_replace "+" "" var else var in
      let var := if char_in "{" var then slice_1_m1 var else var in
      Some var
  end.

(** [x or None] on the result of [sanitize]. *)
Definition or_None (x : option string) : option string :=
  match x with
  | Some EmptyString => None
  | _ => x
  end.

(** Truth value of [None] and of a str. *)
Definition truthy (x : option string) : bool :=
  match x with
  | Some (String _ _) => true
  | _ => false
  end.

(** The inner loop over [path_element] (lines 139-142); [None in str]
    raises. *)
Fixpoint contains_elements (item_in_contains : option string)
    (path : list string) (is_in : bool) (outs : list bool)
    : result (bool * list bool) :=
  match path with
  | [] => Ok (is_in, outs)
  | path_element :: path' =>
      match item_in_contains with
      | None => Raise TypeError
      | Some item =>
          if str_in item path_element
          then contains_elements item_in_contains path' true (outs ++ [true])
          else contains_elements item_in_contains path' is_in outs
      end
  end.

(** The loop over [contains] (lines 135-144). *)
Fixpoint contains_outs (contains : list (option string)) (path : list string)
    (outs : list bool) : result (list bool) :=
  match contains with
  | [] => Ok outs
  | item_in_contains :: contains' =>
      '(is_in, outs) ← contains_elements item_in_contains path false outs;
      let outs := if negb is_in then outs ++ [is_in] else outs in
      contains_outs contains' path outs
  end.

Definition py_all (l : list bool) : bool := forallb id l.

(** One iteration of the loop over [paths] (lines 126-150): does [path]
    pass the filters. *)
Definition path_passes (startwith : option string)
    (contains : list (option string)) (endswith : option string)
    (path : list string) : result bool :=
  match last path, head path with
  | Some last_item, Some first_item =>
      let sanitized_last_path_item := find_path_sanitize (Some last_item) in
      let sanitized_first_path_item := find_path_sanitize (Some first_item) in
      let _start :=
        if truthy startwith
        then bool_decide (startwith = sanitized_first_path_item)
        else true in
      let _ends :=
        if truthy endswith
        then bool_decide (endswith = sanitized_last_path_item)
        else true in
      outs ← contains_outs contains path [];
      let _contains := py_all outs in
      mret (py_all [_start; _ends; _contains])
  | _, _ => Raise IndexError
  end.

Fixpoint find_path_loop (startwith : option string)
    (contains : list (option string)) (endswith : option string)
    (paths : list (list string)) : result (option (list string)) :=
  match paths with
  | [] => Ok None
  | path :: paths' =>
      path_passes startwith contains endswith path ≫= fun ok : bool =>
      if ok then mret (Some path)
      else find_path_loop startwith contains endswith paths'
  end.

Definition find_path (depth : nat) (register : list node)
    (startwith : option string) (contains : option (list string))
    (endswith : option string) (template_name : string)
    : result (option (list string)) :=
  built ← resolve_template depth register template_name;
  let resolved := resolve built in
  let paths := map (fun item => py_iter (e_path item)) resolved in
  let startwith := or_None (find_path_sanitize startwith) in
  let endswith := or_None (find_path_sanitize endswith) in
  let contains := map (fun c => find_path_sanitize (Some c)) (default [] contains) in
  find_path_loop startwith contains endswith paths.

(** ** template.py: filling the register from the template folder *)

(** The template folder as the code reads it: [os.listdir] order is the order
    of the lists, [st_mode] the mode of [os.stat]. *)
Inductive fs_entry : Type :=
| FsFile (nm : string) (st_mode : Z) (data : string)
| FsDir (nm : string) (st_mode : Z) (entries : list fs_entry).

Definition fs_name (e : fs_entry) : string :=
  match e with
  | FsFile nm _ _ => nm
  | FsDir nm _ _ => nm
  end.

Definition fs_mode (e : fs_entry) : Z :=
  match e with
  | FsFile _ m _ => m
  | FsDir _ m _ => m
  end.

Definition isfile (e : fs_entry) : bool :=
  match e with
  | FsFile _ _ _ => true
  | FsDir _ _ _ => false
  end.

Definition S_IMODE (mode : Z) : Z := Z.land mode 4095.

(** [oct(n)] of Python 2 for [n >= 0]: ['0'] and the octal digits. *)
Definition oct_digit (n : N) : ascii := ascii_of_N (48 + n).

Fixpoint oct_digits (fuel : nat) (n : N) (acc : string) : string :=
  match fuel with
  | O => acc
  | S fuel =>
      if (n =? 0)%N then acc
      else oct_digits fuel (n / 8)%N (String (oct_digit (n mod 8)%N) acc)
  end.

Definition oct (z : Z) : string :=
  if (z =? 0)%Z then "0"
  else String "0" (oct_digits (N.to_nat (N.size (Z.to_N z))) (Z.to_N z) "").

Definition bool_le (a b : bool) : bool := implb a b.

(** [_register_templates] (lines 380-427): the items appended to
    [mapped]. *)
Fixpoint _register_templates (depth : nat) (root : fs_entry)
    : result (list node) :=
  match depth with
  | O => Raise RecursionLimit
  | S depth =>
      match root with
      | FsFile _ _ _ => Ok (@nil node)
      | FsDir _ _ entries =>
          entries ← sorted bool_le (fun x => Ok (isfile x)) entries;
          items ← mapM (fun subentry =>
            let entry := fs_name subentry in
            if startswith entry ".git" then mret None
            else
              let permission := oct (S_IMODE (fs_mode subentry)) in
              match subentry with
              | FsDir _ _ _ =>
                  ch ← _register_templates depth subentry;
                  mret (Some (Node entry (Some (PyStr permission))
                                (Some true) None (Some ch)))
              | FsFile _ _ data =>
                  mret (Some (Node entry (Some (PyStr permission))
                                (Some false) (Some data) None))
              end) entries;
          mret (omap id items)
      end
  end.

(** [register_templates] (lines 341-378) on the entries of the template
    folder. *)
Definition register_templates (depth : nat) (templates : list fs_entry)
    : result (list node) :=
  mapM (fun current =>
    let template := fs_name current in
    let permission := oct (S_IMODE (fs_mode current)) in
    ch ← _register_templates depth current;
    mret (Node template (Some (PyStr permission)) (Some true) None (Some ch)))
    templates.

(** [__init__] (lines 31-72): the register of a new manager. *)
Definition register_key (x : node) : result string :=
  match sanitize (Some (name x)) with
  | None => Raise AttributeError
  | Some s => Ok (lower s)
  end.

Definition __init__ (depth : nat) (templates : list fs_entry)
    : result (list node) :=
  register ← register_templates depth templates;
  register ← mapM (sort_children depth) register;
  sorted str_le register_key register.

(** ** filesystem.py: the library calls *)

Definition os_sep : string := "/".

Abbreviation dict := (gmap string string).

Fixpoint str_take (n : nat) (s : string) : string :=
  match n, s with
  | S n', String a s' => String a (str_take n' s')
  | _, _ => EmptyString
  end.

Fixpoint str_drop (n : nat) (s : string) : string :=
  match n, s with
  | S n', String _ s' => str_drop n' s'
  | _, _ => s
  end.

Definition is_digit (a : ascii) : bool :=
  let n := nat_of_ascii a in (48 <=? n)%nat && (n <=? 57)%nat.

Definition is_letter (a : ascii) : bool :=
  let n := nat_of_ascii a in
  ((65 <=? n)%nat && (n <=? 90)%nat) || ((97 <=? n)%nat && (n <=? 122)%nat).

Definition is_word (a : ascii) : bool :=
  is_letter a || is_digit a || ascii_eqb a "_".

Fixpoint str_forallb (P : ascii -> bool) (s : string) : bool :=
  match s with
  | EmptyString => true
  | String a s' => P a && str_forallb P s'
  end.

Fixpoint decimal_go (acc : nat) (s : string) : nat :=
  match s with
  | EmptyString => acc
  | String a s' => decimal_go (10 * acc + (nat_of_ascii a - 48)) s'
  end.

Definition decimal (s : string) : nat := decimal_go 0 s.

(** *** [str.format]

    The replacement fields modelled are the plain ones: [{}], [{3}] and
    [{key}].  A field with a conversion, a format spec, an attribute or an
    index ([!], [:], [.], [[]), or with a nested brace, or a number of more
    than nine digits, is outside the model: the scan answers [None] and
    [format] hands the call to [str_format_other].  Errors come in the order
    of the scan, as the interpreter raises them. *)

(** How the fields seen so far were numbered. *)
Inductive numbering : Type :=
| NoIndex
| Automatic (next : nat)
| Manual.

Definition positional (args : list string) (i : nat) : result string :=
  match args !! i with
  | Some v => Ok v
  | None => Raise IndexError
  end.

Definition get_field (args : list string) (kwargs : dict) (st : numbering)
    (field : string) : option (result (string * numbering)) :=
  match field with
  | EmptyString =>
      match st with
      | Manual => Some (Raise ValueError)
      | NoIndex => Some (v ← positional args 0; mret (v, Automatic 1))
      | Automatic n => Some (v ← positional args n; mret (v, Automatic (S n)))
      end
  | _ =>
      if str_forallb is_digit field then
        if (9 <? String.length field)%nat then None
        else
          match st with
          | Automatic _ => Some (Raise ValueError)
          | _ => Some (v ← positional args (decimal field); mret (v, Manual))
          end
      else
        match kwargs !! field with
        | Some v => Some (Ok (v, st))
        | None => Some (Raise (KeyError field))
        end
  end.

Definition field_special (a : ascii) : bool :=
  ascii_eqb a "{" || ascii_eqb a "!" || ascii_eqb a ":" || ascii_eqb a "."
  || ascii_eqb a "[".

Inductive format_mode : Type :=
| InText
| InField (field : string).

Definition prepend (v : string) (o : option (result string))
    : option (result string) :=
  match o with
  | Some (Ok x) => Some (Ok (v ++ x)%string)
  | _ => o
  end.

Fixpoint format_scan (args : list string) (kwargs : dict) (st : numbering)
    (mode : format_mode) (s : string) {struct s} : option (result string) :=
  match mode, s with
  | InText, EmptyString => Some (Ok "")
  | InText, String c s' =>
      if ascii_eqb c "{" then
        match s' with
        | EmptyString => Some (Raise ValueError)
        | String c' s'' =>
            if ascii_eqb c' "{"
            then prepend "{" (format_scan args kwargs st InText s'')
            else format_scan args kwargs st (InField "") s'
        end
      else if ascii_eqb c "}" then
        match s' with
        | EmptyString => Some (Raise ValueError)
        | String c' s'' =>
            if ascii_eqb c' "}"
            then prepend "}" (format_scan args kwargs st InText s'')
            else Some (Raise ValueError)
        end
      else prepend (String c "") (format_scan args kwargs st InText s')
  | InField _, EmptyString => Some (Raise ValueError)
  | InField field, String c s' =>
      if ascii_eqb c "}" then
        match get_field args kwargs st field with
        | None => None
        | Some (Raise e) => Some (Raise e)
        | Some (Ok (v, st')) => prepend v (format_scan args kwargs st' InText s')
        end
      else if field_special c then None
      else format_scan args kwargs st (InField (field ++ String c "")%string) s'
  end.

(** *** [re.match]

    The patterns modelled are sequences of ordinary characters, [.] and
    named groups [(?P<name>[...]+)] whose class lists word characters and
    ranges of them; the names are identifiers, all different, fewer than a
    hundred.  Any other pattern is outside the model: [re_parse] answers
    [None] and [re_match] hands the call to [re_match_other]. *)
Inductive re_item : Type :=
| RChar (c : ascii)
| RAny
| RGroup (nm : string) (ranges : list (ascii * ascii)).

Definition re_special (a : ascii) : bool :=
  char_in a ".^$*+?{}[]\|()".

Inductive re_mode : Type :=
| RTop
| RName (nm : string)
| RClass (nm : string) (ranges : list (ascii * ascii)).

Definition re_cons (i : re_item) (o : option (list re_item))
    : option (list re_item) :=
  match o with
  | Some l => Some (i :: l)
  | None => None
  end.

Definition ascii_leb (a b : ascii) : bool :=
  (nat_of_ascii a <=? nat_of_ascii b)%nat.

Fixpoint re_scan (mode : re_mode) (s : string) {struct s}
    : option (list re_item) :=
  match mode, s with
  | RTop, EmptyString => Some []
  | RTop, String c s' =>
      if ascii_eqb c "(" then
        match s' with
        | String "?" (String "P" (String "<" s4)) => re_scan (RName "") s4
        | _ => None
        end
      else if ascii_eqb c "." then re_cons RAny (re_scan RTop s')
      else if re_special c then None
      else re_cons (RChar c) (re_scan RTop s')
  | RName nm, String c s' =>
      if ascii_eqb c ">" then
        match s' with
        | String "[" s2 => re_scan (RClass nm []) s2
        | _ => None
        end
      else if is_word c then re_scan (RName (nm ++ String c "")%string) s'
      else None
  | RClass nm ranges, String c s' =>
      if ascii_eqb c "]" then
        match ranges, s' with
        | _ :: _, String "+" (String ")" s3) =>
            re_cons (RGroup nm ranges) (re_scan RTop s3)
        | _, _ => None
        end
      else if is_word c then
        match s' with
        | String "-" (String c2 s3) =>
            if is_word c2 && ascii_leb c c2
            then re_scan (RClass nm (ranges ++ [(c, c2)])) s3
            else None
        | _ => re_scan (RClass nm (ranges ++ [(c, c)])) s'
        end
      else None
  | _, EmptyString => None
  end.

Definition group_names (items : list re_item) : list string :=
  omap (fun i => match i with RGroup nm _ => Some nm | _ => None end) items.

Definition is_identifier (nm : string) : bool :=
  match nm with
  | EmptyString => false
  | String a _ => negb (is_digit a) && str_forallb is_word nm
  end.

Definition re_parse (pattern : string) : option (list re_item) :=
  match re_scan RTop pattern with
  | Some items =>
      let names := group_names items in
      if forallb is_identifier names && bool_decide (NoDup names)
         && (length names <? 100)%nat
      then Some items else None
  | None => None
  end.

Definition in_class (ranges : list (ascii * ascii)) (a : ascii) : bool :=
  existsb (fun r => ascii_leb (fst r) a && ascii_leb a (snd r)) ranges.

(** The length of the longest prefix of [s] in the class. *)
Fixpoint run_length (ranges : list (ascii * ascii)) (s : string) : nat :=
  match s with
  | EmptyString => O
  | String a s' => if in_class ranges a then S (run_length ranges s') else O
  end.

(** A greedy [+]: the longest repetition first, then shorter ones. *)
Fixpoint longest_first {A} (n : nat) (k : nat -> option A) : option A :=
  match n with
  | O => None
  | S m =>
      match k n with
      | Some r => Some r
      | None => longest_first m k
      end
  end.

Definition newline : ascii := "010"%char.

(** A match of the items at the start of [s], with the groups captured. *)
Fixpoint re_items_match (items : list re_item) (s : string) (groups : dict)
    : option dict :=
  match items with
  | [] => Some groups
  | RChar c :: items' =>
      match s with
      | String a s' => if ascii_eqb a c then re_items_match items' s' groups else None
      | EmptyString => None
      end
  | RAny :: items' =>
      match s with
      | String a s' =>
          if ascii_eqb a newline then None else re_items_match items' s' groups
      | EmptyString => None
      end
  | RGroup nm ranges :: items' =>
      longest_first (run_length ranges s) (fun k =>
        re_items_match items' (str_drop k s) (<[nm := str_take k s]> groups))
  end.

(** Python 2 orders dicts by size, then by the smallest key on which they
    differ, then by the value under it. *)
Definition differing_keys (a b : dict) : list string :=
  filter (fun k => a !! k <> b !! k) (map fst (map_to_list a)).

Definition str_min (l : list string) : option string :=
  foldr (fun k acc =>
           match acc with
           | Some m => if String.ltb k m then Some k else Some m
           | None => Some k
           end) None l.

Definition dict_le (a b : dict) : bool :=
  if (size a <? size b)%nat then true
  else if (size b <? size a)%nat then false
  else
    match str_min (differing_keys a b), str_min (differing_keys b a) with
    | Some ka, Some kb =>
        if String.ltb ka kb then true
        else if String.ltb kb ka then false
        else
          match a !! ka, b !! kb with
          | Some va, Some vb => str_le va vb
          | _, _ => true
          end
    | _, _ => true
    end.

(** [l.sort()]. *)
Definition list_sort {A} (le : A -> A -> bool) (l : list A) : list A :=
  map snd (sort_decorated le (map (fun x => (x, x)) l)).

Section FileSystemManager.

(** What [str.format] and [re.match] do outside the fragments modelled
    above. *)
Variable str_format_other : string -> list string -> dict -> result string.
Variable re_match_other : string -> string -> result (option dict).

(** [fmt.format] on the positional [args] and the keywords [kwargs]. *)
Definition format (fmt : string) (args : list string) (kwargs : dict)
    : result string :=
  match format_scan args kwargs NoIndex InText fmt with
  | Some r => r
  | None => str_format_other fmt args kwargs
  end.

(** [re.compile(pattern).match(s)], then [.groupdict()] on a match. *)
Definition re_match (pattern s : string) : result (option dict) :=
  match re_parse pattern with
  | Some items => Ok (re_items_match items s ∅)
  | None => re_match_other pattern s
  end.

(** ** filesystem.py: the manager *)

Definition regexp_config : dict :=
  <["show" := "(?P<show>[a-zA-Z0-9_]+)"]>
  (<["sequence" := "(?P<sequence>[a-zA-Z0-9_]+)"]>
  (<["shot" := "(?P<shot>[a-zA-Z0-9_]+)"]>
  (<["department" := "(?P<department>[a-z_]+)"]> ∅))).

Definition default_path_regex : string := "(?P<{0}>[a-zA-Z0-9_]+)".

(** [item.split('+')[1]] for an item that holds a '+'. *)
Definition split_1 (item : string) : string := nth 1 (split "+" item) "".

(** [_to_parser] (lines 113-134). *)
Definition parser_entry (entry : string) : result string :=
  if char_in "+" entry then
    let entry := split_1 entry in
    let parser := default default_path_regex (regexp_config !! entry) in
    format parser [entry] ∅
  else Ok entry.

Definition _to_parser (paths : list entry) : result (list string) :=
  mapM (fun path =>
          result_path ← mapM parser_entry (py_iter (e_path path));
          mret (join os_sep result_path)) paths.

(** [parse] (lines 83-111). *)
Fixpoint parse_loop (parsers : list string) (path : string)
    (matched_results : list dict) : result (list dict) :=
  match parsers with
  | [] => Ok matched_results
  | parser :: parsers' =>
      re_match parser path ≫= fun m : option dict =>
      match m with
      | None => parse_loop parsers' path matched_results
      | Some result =>
          if negb (bool_decide (result = ∅))
             && negb (bool_decide (result ∈ matched_results))
          then parse_loop parsers' path (matched_results ++ [result])
          else parse_loop parsers' path matched_results
      end
  end.

Definition parse (depth : nat) (register : list node) (path nm : string)
    : result (list dict) :=
  built ← resolve_template depth register nm;
  let results := resolve built in
  parsers ← _to_parser results;
  matched_results ← parse_loop parsers path [];
  mret (reverse (list_sort dict_le matched_results)).

(** [_to_path] (lines 136-166).  The entries are objects the caller holds
    too: [heap] is the store of the dicts, [paths] and [result_paths] hold
    references into it, and [entry['path'] = final_path] writes the
    store. *)
Definition set_path (e : entry) (p : path_value) : entry :=
  Entry p (e_permission e) (e_folder e) (e_content e).

Definition path_item (item : string) : string :=
  if char_in "+" item then
    let item := split_1 item in
    ("{" ++ item ++ "}")%string
  else item.

(** [result_path == e] for the list [result_path] and a dict [e] of
    [result_paths]: a list and a dict are never equal. *)
Definition list_eq_dict (result_path : list string) (e : entry) : bool := false.

Definition list_in (heap : list entry) (result_path : list string)
    (result_paths : list nat) : bool :=
  existsb (fun r => match heap !! r with
                    | Some e => list_eq_dict result_path e
                    | None => false
                    end) result_paths.

Fixpoint to_path_loop (data : dict) (paths : list nat) (heap : list entry)
    (result_paths : list nat) : list entry * list nat :=
  match paths with
  | [] => (heap, result_paths)
  | r :: paths' =>
      match heap !! r with
      | None => to_path_loop data paths' heap result_paths
      | Some entry =>
          let result_path := map path_item (py_iter (e_path entry)) in
          if negb (list_in heap result_path result_paths) then
            let final_path := join os_sep result_path in
            match format final_path [] data with
            | Ok final_path =>
                let heap := <[r := set_path entry (Joined final_path)]> heap in
                to_path_loop data paths' heap (result_paths ++ [r])
            | Raise _ => to_path_loop data paths' heap result_paths
            end
          else to_path_loop data paths' heap result_paths
      end
  end.

Definition _to_path (heap : list entry) (paths : list nat) (data : dict)
    : list entry * list nat :=
  to_path_loop data paths heap [].

(** The first lines of [build] (lines 46-49): the flattened entries are the
    store, in their order, and [path_results] the entries kept. *)
Definition build_path_results (depth : nat) (register : list node)
    (nm : string) (data : dict) : result (list entry * list nat) :=
  built ← resolve_template depth register nm;
  let results := resolve built in
  mret (_to_path results (seq 0 (length results)) data).

End FileSystemManager.

(** ** Predicates of the specification *)

(** The canonical order of siblings: folders before files, then the name
    without the two markers, compared without case. *)
Definition is_folder (x : node) : bool :=
  match folder x with
  | Some true => true
  | _ => false
  end.

Definition strip_markers (s : string) : string :=
  str_replace "+" "" (str_replace "@" "" s).

Definition sibling_key (x : node) : bool * string :=
  (negb (is_folder x), lower (strip_markers (name x))).

Definition sibling_le (a b : node) : Prop :=
  key_le (sibling_key a) (sibling_key b) = true.

(** Every sibling list of the tree is in canonical order. *)
Inductive tree_sorted : node -> Prop :=
| tree_sorted_node n :
    (forall ch, children n = Some ch ->
       StronglySorted sibling_le ch /\ Forall tree_sorted ch) ->
    tree_sorted n.

(** A property of names that holds at every node of a tree. *)
Fixpoint all_names (P : string -> bool) (t : node) {struct t} : bool :=
  match t with
  | Node nm _ _ _ ch =>
      P nm && match ch with
              | None => true
              | Some l => forallb (all_names P) l
              end
  end.

Definition unmarked (nm : string) : bool := negb (char_in reference_indicator nm).

Definition registered (register : list node) (nm : string) : bool :=
  existsb (fun item => String.eqb (name item) nm) register.

(** What one iteration of the loop of [_resolve_template] leaves at its
    index: the merged and expanded fragment for a placeholder, the expanded
    entry otherwise. *)
Definition resolve_child (depth : nat) (register : list node) (entry : node)
    : result node :=
  if char_in reference_indicator (name entry) then
    fragment ← _get_in_register register (name entry);
    fragment ← extend_children fragment entry;
    _resolve_template depth register fragment
  else _resolve_template depth register entry.

(** No name of the tree carries the reference marker. *)
Definition reference_free (t : node) : bool := all_names unmarked t.

(** No segment of the path of a flattened entry carries the reference
    marker. *)
Definition unmarked_path (e : entry) : Prop :=
  Forall (fun seg => char_in reference_indicator seg = false) (py_iter (e_path e)).






(** The segment lists of the flattened entries. *)
Definition flattened_paths (built : node) : list (list string) :=
  map (fun item => py_iter (e_path item)) (resolve built).

(** The path string [_to_path] computes for an entry, and the entry once it
    is written back. *)
Definition path_string
    (str_format_other : string -> list string -> dict -> result string)
    (data : dict) (e : entry) : result string :=
  format str_format_other
    (join os_sep (map path_item (py_iter (e_path e)))) [] data.

Definition is_Ok {A} (r : result A) : bool :=
  match r with
  | Ok _ => true
  | Raise _ => false
  end.

Definition kept
    (str_format_other : string -> list string -> dict -> result string)
    (data : dict) (heap : list entry) (r : nat) : bool :=
  match heap !! r with
  | Some e => is_Ok (path_string str_format_other data e)
  | None => false
  end.

Definition materialized
    (str_format_other : string -> list string -> dict -> result string)
    (data : dict) (e : entry) : entry :=
  match path_string str_format_other data e with
  | Ok s => set_path e (Joined s)
  | Raise _ => e
  end.

(** Segments on which the formatting of the path string is within the
    model of [str.format]: a literal segment holds no brace, the name of a
    variable segment is a plain key. *)
Definition brace_free (s : string) : bool :=
  negb (char_in "{" s) && negb (char_in "}" s).

Definition key_char (c : ascii) : bool :=
  negb (field_special c) && negb (ascii_eqb c "}").

Definition simple_key (k : string) : bool :=
  negb (String.eqb k "") && negb (str_forallb is_digit k)
  && str_forallb key_char k.

Definition format_plain (seg : string) : bool :=
  if char_in "+" seg then simple_key (split_1 seg) else brace_free seg.

(** The keys a list of segments requires from the data, and whether the
    data has them all. *)
Definition required_keys (segs : list string) : list string :=
  map split_1 (List.filter (char_in "+") segs).

Definition keys_present (data : dict) (segs : list string) : bool :=
  forallb (fun k => bool_decide (is_Some (data !! k))) (required_keys segs).

(** A segment with its variable replaced by the value of the data. *)
Definition segment_value (data : dict) (seg : string) : result string :=
  if char_in "+" seg then
    match data !! split_1 seg with
    | Some v => Ok v
    | None => Raise (KeyError (split_1 seg))
    end
  else Ok seg.

Definition substitute (data : dict) (seg : string) : string :=
  if char_in "+" seg then default "" (data !! split_1 seg) else seg.

(** The segments of an entry, and whether the data has the keys of the
    entry behind a reference. *)
Definition segments (e : entry) : list string := py_iter (e_path e).

Definition has_keys (data : dict) (heap : list entry) (r : nat) : bool :=
  match heap !! r with
  | Some e => keys_present data (segments e)
  | None => false
  end.

Definition plain_entry (e : entry) : Prop :=
  Forall (fun seg => format_plain seg = true) (segments e).

(** Paths of a template whose one variable is 'show': a literal segment is
    made of characters that stand for themselves in a pattern (or is matched
    by [.]), a variable segment is named 'show', and a path holds at most one
    of them. *)
Definition re_plain_char (c : ascii) : bool :=
  ascii_eqb c "." || negb (re_special c).

Definition plain_literal (seg : string) : bool := str_forallb re_plain_char seg.




Definition word_class : list (ascii * ascii) :=
  [("a", "z"); ("A", "Z"); ("0", "9"); ("_", "_")]%char.

(** The pattern of a path, item by item. *)
Definition literal_items (s : string) : list re_item :=
  map (fun c => if ascii_eqb c "." then RAny else RChar c)
      (list_ascii_of_string s).







(** ** A small template folder and its register *)

Definition dir (nm : string) (ch : list node) : node :=
  Node nm (Some (PyStr "0755")) (Some true) None (Some ch).

Definition file (nm data : string) : node :=
  Node nm (Some (PyStr "0644")) (Some false) (Some data) None.

Definition example_show : node :=
  dir "@+show+@"
    [file "readme.txt" "hello"; dir "@seq@" [dir "X" []]; dir "Zeta" [];
     dir "alpha" []].

Definition example_seq : node := dir "@seq@" [dir "A" []; dir "B" []].

Definition example_register : list node := [example_show; example_seq].

Definition example_expanded : node :=
  Eval vm_compute in
    match _resolve_template 4 example_register example_show with
    | Ok t => t
    | Raise _ => example_show
    end.

Definition example_folder : list fs_entry :=
  [FsDir ".git" 493 [FsFile "HEAD" 420 "ref: refs/heads/master"];
   FsDir "@+show+@" 493
     [FsFile "readme.txt" 420 "hello"; FsDir ".git" 493 [];
      FsFile ".gitignore" 420 ""; FsDir "shots" 509 []]].

(** A template folder with [show/@seq@/a] and [@seq@/a]: the expansion of
    the placeholder holds the child 'a' twice. *)
Definition duplicate_register : list node :=
  [dir "show" [dir "@seq@" [dir "a" []]]; dir "@seq@" [dir "a" []]].

Definition example_built : node :=
  Eval vm_compute in
    match resolve_template 4 example_register "@+show+@" with
    | Ok t => t
    | Raise _ => example_show
    end.

(** A library that raises on every call outside the modelled fragments. *)
Definition no_format_other (fmt : string) (args : list string) (kwargs : dict)
    : result string := Raise ValueError.

Definition no_re_other (pattern s : string) : result (option dict) :=
  Raise ReError.

(** Three flattened entries, one of them with a variable the data lacks. *)
Definition example_heap : list entry :=
  [Entry (Segments ["project"]) (PyStr "0755") true "";
   Entry (Segments ["project"; "+show+"]) (PyStr "0755") true "";
   Entry (Segments ["project"; "+show+"; "+shot+"]) (PyStr "0755") true ""].

Definition example_data : dict := {["show" := "rex"]}.

Definition example_materialized : list entry * list nat :=
  Eval vm_compute in _to_path no_format_other example_heap [0; 1; 2]%nat example_data.



(** ** Further predicates on trees and registers *)

(** The number of nodes of a tree. *)
Fixpoint node_count (t : node) {struct t} : nat :=
  match t with
  | Node _ _ _ _ None => 1
  | Node _ _ _ _ (Some ch) => S (list_sum (map node_count ch))
  end.

(** A property of the 'permission' key that holds at every node. *)
Fixpoint all_permissions (P : option pyval -> bool) (t : node) {struct t} : bool :=
  match t with
  | Node _ p _ _ ch =>
      P p && match ch with
             | None => true
             | Some l => forallb (all_permissions P) l
             end
  end.

Definition str_permission (p : option pyval) : bool :=
  match p with
  | Some (PyStr _) => true
  | _ => false
  end.

(** The name does not start with the control directory name. *)
Definition not_git (nm : string) : bool := negb (startswith nm ".git").

(** The key of the register view: the name without markers, in lower
    case. *)
Definition register_name_le (a b : node) : Prop :=
  str_le (lower (strip_markers (name a))) (lower (strip_markers (name b))) = true.

(** The tree holds a child, directly under its root, of that name. *)
Definition has_child_named (nm : string) (t : node) : Prop :=
  exists c, c ∈ get_children t /\ name c = nm.

(** The fields of a registered template, and those its entry of the template
    folder gives: the name of the entry, the mode bits printed by [oct],
    [folder=True], no content. *)
Definition template_fields (item : node)
    : string * option pyval * option bool * option string :=
  (name item, permission item, folder item, content item).

Definition entry_fields (e : fs_entry)
    : string * option pyval * option bool * option string :=
  (fs_name e, Some (PyStr (oct (S_IMODE (fs_mode e)))), Some true, None).

(** Characters that are neither the variable marker nor a brace. *)
Definition inert_char (c : ascii) : bool :=
  negb (ascii_eqb c "+") && negb (ascii_eqb c "{") && negb (ascii_eqb c "}").

(** ** The patterns of [_to_parser], segment by segment *)

(** The group of a variable: the one of [regexp_config] for its name, the
    default one, named after it, otherwise. *)
Definition variable_pattern (k : string) : string :=
  match regexp_config !! k with
  | Some p => p
  | None => "(?P<" ++ k ++ ">[a-zA-Z0-9_]+)"
  end.

Definition parser_segment (seg : string) : string :=
  if char_in "+" seg then variable_pattern (split_1 seg) else seg.

Definition parser_path (e : entry) : string :=
  join os_sep (map parser_segment (segments e)).

(** ** filesystem.py: [build] (lines 34-81)

    [build] talks to the operating system.  The calls it makes are recorded
    in a trace; whether a call raises, and what, is the answer of
    [os_raises], given the calls made before. *)

Inductive os_call : Type :=
| Makedirs (path : string)
| WriteFile (path content : string)
| Realpath (path : string)
| Chmod (path : string) (mode : pyval).

(** What a call of the operating system raises: the two classes the
    handlers of [build] name, or anything else. *)
Inductive os_exn : Type :=
| OSError
| IOError
| OtherError (e : exn).

(** [s.endswith(c)] for a one-character string [c]. *)
Fixpoint endswith_char (s : string) (c : ascii) : bool :=
  match s with
  | EmptyString => false
  | String a EmptyString => ascii_eqb a c
  | String _ s' => endswith_char s' c
  end.

(** [os.path.join(a, b)] of posixpath, on the root given to [build] ([None]
    by default) and the 'path' of an entry: [None] has no [endswith], a list
    no [startswith]. *)
Definition path_join (a : option string) (b : path_value) : result string :=
  match b with
  | Segments _ => Raise AttributeError
  | Joined b =>
      if startswith b "/" then Ok b
      else
        match a with
        | None => Raise AttributeError
        | Some a =>
            if String.eqb a "" || endswith_char a "/" then Ok (a ++ b)%string
            else Ok (a ++ "/" ++ b)%string
        end
  end.

(** [oct(permission)] on the value of the 'permission' key: a str has no
    [__oct__]. *)
Definition py_oct (v : pyval) : result string :=
  match v with
  | PyInt z => Ok (if (z <? 0)%Z then ("-" ++ oct (- z))%string else oct z)
  | PyStr _ => Raise TypeError
  end.

Section Build.

Variable str_format_other : string -> list string -> dict -> result string.
Variable os_raises : list os_call -> os_call -> option os_exn.

(** The first loop (lines 50-69): [os.makedirs] under [except Exception],
    the three calls that write a file under [except IOError]. *)
Fixpoint build_create (root : option string) (path_results : list entry)
    (trace : list os_call) : list os_call * option os_exn :=
  match path_results with
  | [] => (trace, None)
  | result :: rest =>
      match path_join root (e_path result) with
      | Raise e => (trace, Some (OtherError e))
      | Ok path =>
          if e_folder result then
            build_create root rest (trace ++ [Makedirs path])
          else
            let call := WriteFile path (e_content result) in
            match os_raises trace call with
            | None | Some IOError => build_create root rest (trace ++ [call])
            | Some e => (trace ++ [call], Some e)
            end
      end
  end.

(** The second loop (lines 72-81), over the reversed results:
    [oct(permission)] and [os.path.realpath(path)] for the log line, outside
    any handler, then [os.chmod] under [except OSError]. *)
Fixpoint build_chmod (root : option string) (path_results : list entry)
    (trace : list os_call) : list os_call * option os_exn :=
  match path_results with
  | [] => (trace, None)
  | result :: rest =>
      match path_join root (e_path result) with
      | Raise e => (trace, Some (OtherError e))
      | Ok path =>
          let permission := e_permission result in
          match py_oct permission with
          | Raise e => (trace, Some (OtherError e))
          | Ok _ =>
              match os_raises trace (Realpath path) with
              | Some e => (trace ++ [Realpath path], Some e)
              | None =>
                  let trace := trace ++ [Realpath path] in
                  let call := Chmod path permission in
                  match os_raises trace call with
                  | None | Some OSError =>
                      build_chmod root rest (trace ++ [call])
                  | Some e => (trace ++ [call], Some e)
                  end
              end
          end
      end
  end.

(** [build]: the calls made, and what is raised, if anything. *)
Definition build (depth : nat) (register : list node) (nm : string)
    (data : dict) (root : option string) : list os_call * option os_exn :=
  match build_path_results str_format_other depth register nm data with
  | Raise e => ([], Some (OtherError e))
  | Ok (heap, refs) =>
      let path_results := omap (fun r => heap !! r) refs in
      match build_create root path_results [] with
      | (trace, Some e) => (trace, Some e)
      | (trace, None) => build_chmod root (reverse path_results) trace
      end
  end.

End Build.

(** The call that creates an entry, and the calls of the permission loop
    for it, under a root. *)
Definition full_path (root : string) (e : entry) : string :=
  match path_join (Some root) (e_path e) with
  | Ok p => p
  | Raise _ => ""
  end.

Definition create_call (root : string) (e : entry) : os_call :=
  if e_folder e then Makedirs (full_path root e)
  else WriteFile (full_path root e) (e_content e).

Definition chmod_calls (root : string) (e : entry) : list os_call :=
  [Realpath (full_path root e); Chmod (full_path root e) (e_permission e)].

(** An operating system that raises only what the handlers expect: nothing
    or [IOError] on a write, nothing or [OSError] on [chmod], nothing on
    [realpath]. *)
Definition writes_benign (os_raises : list os_call -> os_call -> option os_exn)
    : Prop :=
  forall trace path content,
    os_raises trace (WriteFile path content) = None \/
    os_raises trace (WriteFile path content) = Some IOError.

Definition chmods_benign (os_raises : list os_call -> os_call -> option os_exn)
    : Prop :=
  forall trace path mode,
    os_raises trace (Realpath path) = None /\
    (os_raises trace (Chmod path mode) = None \/
     os_raises trace (Chmod path mode) = Some OSError).

Definition int_permission (e : entry) : bool :=
  match e_permission e with
  | PyInt _ => true
  | PyStr _ => false
  end.

Definition joined_path (e : entry) : bool :=
  match e_path e with
  | Joined _ => true
  | Segments _ => false
  end.

(** The entries [build] goes through: those of the flattened tree whose
    path formats, with the formatted path. *)
Definition path_results_of
    (str_format_other : string -> list string -> dict -> result string)
    (data : dict) (built : node) : list entry :=
  map (materialized str_format_other data)
    (filter (fun e => is_Ok (path_string str_format_other data e) = true)
       (resolve built)).

(** ** Further examples *)

(** The register a new manager reads from [example_folder]. *)
Definition example_init : list node :=
  Eval vm_compute in
    match __init__ 4 example_folder with
    | Ok register => register
    | Raise _ => []
    end.

Definition example_init_built : node :=
  Eval vm_compute in
    match resolve_template 4 example_init "@+show+@" with
    | Ok t => t
    | Raise _ => example_show
    end.

(** A register written by hand, with int permissions or none. *)
Definition int_register : list node :=
  [Node "proj" None (Some true) None
     (Some [Node "a.txt" None (Some false) (Some "hi") None;
            Node "+show+" (Some (PyInt 493)) None None (Some [])])].

Definition int_built : node :=
  Eval vm_compute in
    match resolve_template 4 int_register "proj" with
    | Ok t => t
    | Raise _ => example_show
    end.

(** An operating system on which every call that changes something fails,
    with the error the handlers of [build] expect. *)
Definition failing_os (trace : list os_call) (call : os_call) : option os_exn :=
  match call with
  | Makedirs _ => Some OSError
  | WriteFile _ _ => Some IOError
  | Realpath _ => None
  | Chmod _ _ => Some OSError
  end.

(** A register whose fragment holds a placeholder for itself. *)
Definition loop_register : list node := [dir "@loop@" [dir "@loop@" []]].

(** A template with three variables, and data for them and one more key. *)
Definition shot_register : list node :=
  [dir "+show+" [dir "+department+" [dir "+shot+" []; file "notes" ""]]].

Definition shot_built : node :=
  Eval vm_compute in
    match resolve_template 4 shot_register "+show+" with
    | Ok t => t
    | Raise _ => example_show
    end.

Definition shot_data : dict :=
  <["show" := "rex"]> (<["department" := "anim"]> (<["shot" := "sh010"]>
    {["user" := "ann"]})).

(** What a path below the shot folder parses to. *)
Definition shot_parsed : dict :=
  <["show" := "rex"]> (<["department" := "anim"]> {["shot" := "sh010"]}).

Definition shot_results : list dict :=
  [shot_parsed; <["show" := "rex"]> {["department" := "anim"]};
   {["show" := "rex"]}].

(** ** Paths with any number of variables *)

Definition lower_class : list (ascii * ascii) := [("a", "z"); ("_", "_")]%char.

(** The class of the group [_to_parser] writes for a variable:
    [regexp_config] has its own for 'department'. *)
Definition variable_class (k : string) : list (ascii * ascii) :=
  if String.eqb k "department" then lower_class else word_class.

(** Paths [parse] can compile: a literal segment is made of characters that
    stand for themselves in a pattern, the name of a variable segment is an
    identifier, and no path holds a name twice. *)
Definition general_segment (seg : string) : bool :=
  if char_in "+" seg then is_identifier (split_1 seg) else plain_literal seg.

Definition general_path (segs : list string) : bool :=
  forallb general_segment segs
  && bool_decide (NoDup (required_keys segs))
  && (length (required_keys segs) <? 100)%nat.

Definition general_segment_items (seg : string) : list re_item :=
  if char_in "+" seg
  then [RGroup (split_1 seg) (variable_class (split_1 seg))]
  else literal_items seg.

Fixpoint general_path_items (segs : list string) : list re_item :=
  match segs with
  | [] => []
  | [x] => general_segment_items x
  | x :: l => general_segment_items x ++ RChar "/" :: general_path_items l
  end.

(** The data gives the variable a value its group matches: at least one
    character, all of the class. *)
Definition value_fits (data : dict) (k : string) : bool :=
  match data !! k with
  | Some v =>
      negb (String.eqb v "") && str_forallb (in_class (variable_class k)) v
  | None => false
  end.

Definition data_fits (data : dict) (segs : list string) : bool :=
  forallb (value_fits data) (required_keys segs).

(** The groups a match of the path captures: the variables of the path with
    their values. *)
Definition captured_data (data : dict) (segs : list string) (groups : dict)
    : dict :=
  foldl (fun g seg =>
           if char_in "+" seg
           then <[split_1 seg := default "" (data !! split_1 seg)]> g
           else g)
        groups segs.

(** The string after a value: empty, or a character no group takes. *)
Definition stops (rest : string) : bool :=
  match rest with
  | EmptyString => true
  | String c _ => negb (is_word c)
  end.

(** Paths whose literal segments hold no '.', which a pattern takes for any
    character. *)
Definition dot_free (seg : string) : bool :=
  char_in "+" seg || negb (char_in "." seg).

Definition strict_path (segs : list string) : bool :=
  general_path segs && forallb dot_free segs.

(** * Properties *)

(** ** The result monad, [mapM] and the loops *)

Lemma bind_Ok {A B} (m : result A) (f : A -> result B) (b : B) :
  (m ≫= f) = Ok b -> exists a, m = Ok a /\ f a = Ok b.
Proof. destruct m as [a|e]; cbn; [eauto | discriminate]. Qed.

Lemma bind_Ok_l {A B} (m : result A) (f : A -> result B) (a : A) :
  m = Ok a -> (m ≫= f) = f a.
Proof. intros ->. reflexivity. Qed.

Tactic Notation "inv_bind" hyp(H) "as" ident(a) ident(Ha) :=
  apply bind_Ok in H; destruct H as (a & Ha & H).

Lemma mapM_Ok {A B} (f : A -> result B) (l : list A) (l' : list B) :
  mapM f l = Ok l' <-> Forall2 (fun x y => f x = Ok y) l l'.
Proof.
  revert l'. induction l as [|x l IH]; intros l'; cbn.
  - split.
    + intros [= <-]. constructor.
    + intros H. inversion H. reflexivity.
  - split.
    + intros H. inv_bind H as y Hy. inv_bind H as k Hk. injection H as <-.
      constructor; [assumption | now apply IH].
    + intros H. inversion H as [|? y ? k Hy Hk]; subst.
      rewrite Hy. cbn. apply IH in Hk. rewrite Hk. reflexivity.
Qed.

Lemma mapM_Ok_length {A B} (f : A -> result B) (l : list A) (l' : list B) :
  mapM f l = Ok l' -> length l' = length l.
Proof. intros H%mapM_Ok. symmetry. eapply Forall2_length, H. Qed.

Lemma insert_middle {A} (l1 l2 : list A) (x y : A) :
  <[length l1 := y]> (l1 ++ x :: l2) = l1 ++ y :: l2.
Proof.
  replace (length l1) with (length l1 + 0)%nat by lia.
  rewrite insert_app_r. reflexivity.
Qed.

Lemma list_pop_insert_at {A} (i : nat) (e x y : A) (l : list A) :
  l !! i = Some e ->
  <[i := y]> (list_insert_at i x (list_pop i l)) = <[i := y]> l.
Proof.
  intros Hi. apply list_elem_of_split_length in Hi as (l1 & l2 & -> & ->).
  unfold list_insert_at, list_pop.
  rewrite delete_middle, take_app_length, drop_app_length.
  rewrite !insert_middle. reflexivity.
Qed.

(** A loop that rewrites position [index] with [f entry] is [mapM f]. *)
Lemma for_enumerate_mapM {A} (f : A -> result A)
    (body : nat -> A -> list A -> result (list A)) :
  (forall i e l, l !! i = Some e ->
     body i e l = (x ← f e; mret (<[i := x]> l))) ->
  forall rest done,
    for_enumerate body (length rest) (length done) (done ++ rest)
    = (rest' ← mapM f rest; mret (done ++ rest')).
Proof.
  intros Hbody. induction rest as [|e rest IH]; intros done.
  - cbn. reflexivity.
  - cbn [for_enumerate length].
    rewrite list_lookup_middle by reflexivity.
    rewrite Hbody by (apply list_lookup_middle; reflexivity).
    cbn [mapM]. destruct (f e) as [x|err]; cbn; [|reflexivity].
    rewrite insert_middle.
    replace (done ++ x :: rest) with ((done ++ [x]) ++ rest)
      by (rewrite <- app_assoc; reflexivity).
    replace (S (length done)) with (length (done ++ [x]))
      by (rewrite length_app; simpl; lia).
    rewrite IH. destruct (mapM f rest) as [rest'|err]; cbn; [|reflexivity].
    rewrite <- app_assoc. reflexivity.
Qed.

Lemma filter_ext_Forall {A} (P Q : A -> Prop)
    `{!forall x, Decision (P x)} `{!forall x, Decision (Q x)} (l : list A) :
  Forall (fun x => P x <-> Q x) l -> filter P l = filter Q l.
Proof.
  induction 1 as [|x l Hx _ IH]; [reflexivity|].
  rewrite !filter_cons, IH.
  destruct (decide (P x)), (decide (Q x)); tauto.
Qed.

(** ** The order of the keys and [sorted] *)

Lemma str_le_total (a b : string) : str_le a b = false -> str_le b a = true.
Proof.
  intros H. destruct (String.leb_total a b) as [H'|H']; [|exact H'].
  unfold str_le in H. congruence.
Qed.

Lemma str_le_trans (a b c : string) :
  str_le a b = true -> str_le b c = true -> str_le a c = true.
Proof.
  unfold str_le, String.leb. revert b c.
  induction a as [|x a IH]; intros [|y b] [|z c]; simpl;
    try reflexivity; try (intros; congruence).
  unfold Ascii.compare.
  destruct (N.compare_spec (N_of_ascii x) (N_of_ascii y));
    destruct (N.compare_spec (N_of_ascii y) (N_of_ascii z));
    destruct (N.compare_spec (N_of_ascii x) (N_of_ascii z));
    try lia; try reflexivity; try (intros; congruence).
  apply IH.
Qed.

Lemma key_le_total (k1 k2 : bool * string) :
  key_le k1 k2 = false -> key_le k2 k1 = true.
Proof.
  destruct k1 as [[] s1], k2 as [[] s2]; unfold key_le; simpl;
    try congruence; apply str_le_total.
Qed.

Lemma key_le_trans (k1 k2 k3 : bool * string) :
  key_le k1 k2 = true -> key_le k2 k3 = true -> key_le k1 k3 = true.
Proof.
  destruct k1 as [[] s1], k2 as [[] s2], k3 as [[] s3]; unfold key_le; simpl;
    try congruence; apply str_le_trans.
Qed.

Lemma bool_le_total (a b : bool) : bool_le a b = false -> bool_le b a = true.
Proof. destruct a, b; simpl; congruence. Qed.

Lemma bool_le_trans (a b c : bool) :
  bool_le a b = true -> bool_le b c = true -> bool_le a c = true.
Proof. destruct a, b, c; simpl; congruence. Qed.

Section SortedFacts.
Context {K A : Type} (le : K -> K -> bool).
Hypothesis le_total : forall a b, le a b = false -> le b a = true.
Hypothesis le_trans :
  forall a b c, le a b = true -> le b c = true -> le a c = true.

Lemma insert_by_perm (x : K * A) (l : list (K * A)) :
  Permutation (x :: l) (insert_by le x l).
Proof.
  induction l as [|y l IH]; simpl; [reflexivity|].
  destruct (le (fst x) (fst y)); [reflexivity|].
  rewrite perm_swap. constructor. exact IH.
Qed.

Lemma sort_decorated_perm (l : list (K * A)) :
  Permutation l (sort_decorated le l).
Proof.
  induction l as [|x l IH]; simpl; [reflexivity|].
  rewrite <- insert_by_perm. constructor. exact IH.
Qed.

Lemma insert_by_sorted (x : K * A) (l : list (K * A)) :
  StronglySorted (le_fst le) l -> StronglySorted (le_fst le) (insert_by le x l).
Proof.
  induction 1 as [|y l Hl IH Hy]; simpl.
  - repeat constructor.
  - destruct (le (fst x) (fst y)) eqn:Hxy.
    + constructor; [constructor; assumption|].
      constructor; [exact Hxy|].
      eapply Forall_impl; [exact Hy|].
      intros z Hz. unfold le_fst in *. eapply le_trans; eassumption.
    + constructor; [exact IH|].
      rewrite <- insert_by_perm. constructor; [|exact Hy].
      apply le_total, Hxy.
Qed.

Lemma sort_decorated_sorted (l : list (K * A)) :
  StronglySorted (le_fst le) (sort_decorated le l).
Proof.
  induction l as [|x l IH]; simpl; [constructor|].
  apply insert_by_sorted, IH.
Qed.

(** What [sorted] returns: a permutation of its argument, in the order of
    the keys. *)
Lemma sorted_Ok (key : A -> result K) (l l' : list A) :
  sorted le key l = Ok l' ->
  Permutation l l' /\
  StronglySorted
    (fun a b => forall ka kb, key a = Ok ka -> key b = Ok kb -> le ka kb = true)
    l'.
Proof.
  unfold sorted. intros H. inv_bind H as keyed Ha. injection H as <-.
  apply mapM_Ok in Ha.
  assert (Hkeys : Forall (fun p => key (snd p) = Ok (fst p)) keyed
                  /\ map snd keyed = l).
  { induction Ha as [|x p l keyed Hx _ [IH1 IH2]]; [split; constructor|].
    inv_bind Hx as k Hk. injection Hx as <-. split.
    - constructor; [exact Hk | exact IH1].
    - simpl. rewrite IH2. reflexivity. }
  destruct Hkeys as [Hkeys <-]. split.
  - apply Permutation_map, sort_decorated_perm.
  - rewrite (sort_decorated_perm keyed) in Hkeys.
    pose proof (sort_decorated_sorted keyed) as Hs.
    induction Hs as [|p s Hs IH Hp]; simpl; [constructor|].
    apply Forall_cons in Hkeys as [Hk Hkeys].
    constructor; [apply IH, Hkeys|].
    rewrite Forall_map. rewrite Forall_forall in Hp, Hkeys.
    apply Forall_forall. intros q Hq ka kb Hka Hkb.
    specialize (Hp q Hq). specialize (Hkeys q Hq). unfold le_fst in Hp.
    simpl in *. congruence.
Qed.

Lemma sorted_total (key : A -> result K) (l : list A) :
  Forall (fun x => exists k, key x = Ok k) l ->
  exists l', sorted le key l = Ok l'.
Proof.
  intros H. unfold sorted.
  assert (exists keyed,
    mapM (fun x => k ← key x; mret (k, x)) l = Ok keyed) as [keyed ->].
  { induction H as [|x l [k Hk] _ [keyed IH]]; [eexists; reflexivity|].
    cbn. rewrite Hk. cbn. rewrite IH. cbn. eexists; reflexivity. }
  cbn. eexists; reflexivity.
Qed.
End SortedFacts.

(** ** The canonical sort *)

Lemma str_replace_absent (c : ascii) (new s : string) :
  char_in c s = false -> str_replace c new s = s.
Proof.
  induction s as [|a s IH]; simpl; [reflexivity|].
  intros [Ha Hs]%orb_false_iff. rewrite Ha, IH by exact Hs. reflexivity.
Qed.

Lemma cond_replace (c : ascii) (s : string) :
  (if char_in c s then str_replace c "" s else s) = str_replace c "" s.
Proof.
  destruct (char_in c s) eqn:H; [reflexivity|].
  symmetry. apply str_replace_absent, H.
Qed.

Lemma sanitize_Some (s : string) :
  s <> "" -> sanitize (Some s) = Some (strip_markers s).
Proof.
  intros Hs. destruct s as [|a s]; [congruence|].
  unfold sanitize, strip_markers. rewrite !cond_replace. reflexivity.
Qed.

Lemma sort_key_sibling (x : node) (k : bool * string) :
  sort_key x = Ok k -> k = sibling_key x.
Proof.
  unfold sort_key, sibling_key, py_not, is_folder.
  destruct (name x) as [|a s] eqn:Hn; [discriminate|].
  rewrite sanitize_Some by discriminate. intros [= <-].
  destruct (folder x) as [[]|]; reflexivity.
Qed.

Lemma sort_children_key (depth : nat) (x y : node) :
  sort_children depth x = Ok y -> sibling_key y = sibling_key x.
Proof.
  destruct depth as [|depth]; [discriminate|]. simpl.
  destruct (0 <? length (get_children x))%nat.
  - intros H. inv_bind H as sc Hsc. inv_bind H as dc Hdc.
    injection H as <-. reflexivity.
  - intros [= <-]. reflexivity.
Qed.

Lemma sorted_Ok_keys {K A} (le : K -> K -> bool) (key : A -> result K)
    (l l' : list A) :
  sorted le key l = Ok l' -> Forall (fun x => exists k, key x = Ok k) l.
Proof.
  unfold sorted. intros H. inv_bind H as keyed Ha. clear H.
  apply mapM_Ok in Ha. induction Ha as [|x p l keyed Hx _ IH]; constructor.
  - inv_bind Hx as k Hk. eauto.
  - exact IH.
Qed.

Lemma StronglySorted_Forall2 {A B} (R : A -> A -> Prop) (S : B -> B -> Prop)
    (T : A -> B -> Prop) (l : list A) (l' : list B) :
  (forall a a' b b', T a b -> T a' b' -> R a a' -> S b b') ->
  Forall2 T l l' -> StronglySorted R l -> StronglySorted S l'.
Proof.
  intros HT H. induction H as [|a b l l' Hab Hl IH]; intros Hs.
  - constructor.
  - apply StronglySorted_inv in Hs as [Hs Ha].
    constructor; [apply IH, Hs|].
    clear IH Hs. induction Hl as [|a' b' l l' Hab' _ IH]; constructor.
    + apply Forall_cons in Ha as [Ha _]. eapply HT; eassumption.
    + apply IH. apply Forall_cons in Ha as [_ Ha]. exact Ha.
Qed.

Lemma sort_children_sorted (depth : nat) (x y : node) :
  sort_children depth x = Ok y -> tree_sorted y.
Proof.
  revert x y. induction depth as [|depth IH]; intros x y; [discriminate|].
  simpl. destruct (0 <? length (get_children x))%nat eqn:Hlen.
  - intros H. inv_bind H as sc Hsc. inv_bind H as dc Hdc. injection H as <-.
    constructor. simpl. intros ch [= <-].
    pose proof (sorted_Ok_keys _ _ _ _ Hsc) as Hkeys.
    apply (sorted_Ok _ key_le_total key_le_trans) in Hsc as [Hperm Hsorted].
    rewrite Hperm in Hkeys. apply mapM_Ok in Hdc. split.
    + eapply (StronglySorted_Forall2 _ sibling_le
               (fun a b => (exists k, sort_key a = Ok k)
                           /\ sort_children depth a = Ok b));
        [| |exact Hsorted].
      * intros a a' b b' [[k Hk] Hb] [[k' Hk'] Hb'] HR.
        unfold sibling_le.
        rewrite (sort_children_key _ _ _ Hb), (sort_children_key _ _ _ Hb').
        rewrite <- (sort_key_sibling _ _ Hk), <- (sort_key_sibling _ _ Hk').
        apply HR; assumption.
      * clear Hsorted Hperm. induction Hdc as [|a b l l' Hab _ IH']; constructor.
        -- apply Forall_cons in Hkeys as [Hk _]. split; assumption.
        -- apply IH'. apply Forall_cons in Hkeys as [_ Hk]. exact Hk.
    + clear -Hdc IH. induction Hdc as [|a b l l' Hab _ IH']; constructor.
      * eapply IH, Hab.
      * exact IH'.
  - intros [= <-]. constructor. intros ch Hch.
    apply Nat.ltb_ge in Hlen. unfold get_children in Hlen. rewrite Hch in Hlen.
    simpl in Hlen. destruct ch; [|simpl in Hlen; lia].
    split; constructor.
Qed.

(** C3: after [resolve_template] completes, every sibling list of the
    returned tree, at every level, is in the canonical order: folders before
    files, then by the name without '@' and '+', compared without case. *)
Theorem resolve_template_sorted (depth : nat) (register : list node)
    (nm : string) (t : node) :
  resolve_template depth register nm = Ok t -> tree_sorted t.
Proof.
  unfold resolve_template. intros H.
  inv_bind H as root Hroot. inv_bind H as built Hbuilt.
  eapply sort_children_sorted, H.
Qed.

(** ** Reference expansion *)

Lemma node_ind' (P : node -> Prop) :
  (forall nm p f c, P (Node nm p f c None)) ->
  (forall nm p f c ch, Forall P ch -> P (Node nm p f c (Some ch))) ->
  forall n, P n.
Proof.
  intros Hleaf Hnode. fix IH 1. intros [nm p f c [ch|]]; [|apply Hleaf].
  apply Hnode. revert ch. fix IHch 1. intros [|x ch]; constructor.
  - apply IH.
  - apply IHch.
Qed.

Lemma forallb_Forall {A} (f : A -> bool) (l : list A) :
  forallb f l = true <-> Forall (fun x => f x = true) l.
Proof.
  induction l as [|x l IH]; simpl.
  - split; [constructor | reflexivity].
  - rewrite andb_true_iff, IH, Forall_cons. reflexivity.
Qed.

Lemma _resolve_template_S (depth : nat) (register : list node) (schema : node) :
  _resolve_template (S depth) register schema =
  match children schema with
  | None => Ok schema
  | Some ch =>
      ch' ← mapM (resolve_child depth register) ch;
      mret (set_children schema ch')
  end.
Proof.
  simpl. destruct (children schema) as [ch|]; [|reflexivity].
  rewrite (for_enumerate_mapM (resolve_child depth register) _) with (done := []).
  - destruct (mapM (resolve_child depth register) ch); reflexivity.
  - intros i e l Hi. unfold resolve_child.
    destruct (char_in reference_indicator (name e)); [|reflexivity].
    destruct (_get_in_register register (name e)) as [fragment|]; [|reflexivity].
    cbn. destruct (extend_children fragment e) as [merged|]; [|reflexivity].
    cbn. destruct (_resolve_template depth register merged) as [done|];
      [|reflexivity].
    cbn. erewrite list_pop_insert_at by exact Hi. reflexivity.
Qed.

Lemma _get_in_register_Ok (register : list node) (nm : string) (item : node) :
  _get_in_register register nm = Ok item ->
  name item = nm /\ item ∈ register /\ registered register nm = true.
Proof.
  unfold registered. induction register as [|x register IH]; simpl; [discriminate|].
  destruct (String.eqb_spec (name x) nm) as [Heq|Hne]; simpl.
  - intros [= <-]. repeat split; [exact Heq | constructor].
  - intros H. destruct (IH H) as (H1 & H2 & H3).
    repeat split; [exact H1 | constructor; exact H2 | exact H3].
Qed.

Lemma extend_children_name (fragment removed merged : node) :
  extend_children fragment removed = Ok merged -> name merged = name fragment.
Proof.
  unfold extend_children.
  destruct (children removed) as [[|x l]|]; try (intros [= <-]; reflexivity).
  destruct (children fragment); [|discriminate]. intros [= <-]. reflexivity.
Qed.

Lemma _resolve_template_name (depth : nat) (register : list node) (x y : node) :
  _resolve_template depth register x = Ok y -> name y = name x.
Proof.
  destruct depth as [|depth]; [discriminate|]. rewrite _resolve_template_S.
  destruct (children x); [|intros [= <-]; reflexivity].
  intros H. inv_bind H as ch' Hch. injection H as <-. reflexivity.
Qed.

Lemma resolve_child_name (depth : nat) (register : list node) (x y : node) :
  resolve_child depth register x = Ok y -> name y = name x.
Proof.
  unfold resolve_child. destruct (char_in reference_indicator (name x)).
  - intros H. inv_bind H as fragment Hf. inv_bind H as merged Hm.
    apply _resolve_template_name in H. apply extend_children_name in Hm.
    apply _get_in_register_Ok in Hf as [Hf _]. congruence.
  - apply _resolve_template_name.
Qed.

Lemma reference_free_inv (x : node) :
  reference_free x = true ->
  char_in reference_indicator (name x) = false /\
  forallb reference_free (get_children x) = true.
Proof.
  destruct x as [nm p f c [ch|]]; unfold reference_free, get_children; simpl;
    intros [Hn Hch]%andb_true_iff; (split; [|assumption || reflexivity]);
    unfold unmarked in Hn; apply negb_true_iff in Hn; exact Hn.
Qed.

(** A tree whose descendants carry no reference marker is left as it is. *)
Lemma _resolve_template_reference_free (depth : nat) (register : list node)
    (x y : node) :
  forallb reference_free (get_children x) = true ->
  _resolve_template depth register x = Ok y -> y = x.
Proof.
  revert x y. induction depth as [|depth IH]; intros x y Hfree; [discriminate|].
  rewrite _resolve_template_S. destruct x as [nm p f c [ch|]]; simpl;
    [|intros [= <-]; reflexivity].
  intros H. inv_bind H as ch' Hch. injection H as <-.
  unfold set_children. simpl. do 2 f_equal.
  unfold get_children in Hfree. simpl in Hfree. apply forallb_Forall in Hfree.
  apply mapM_Ok in Hch. induction Hch as [|a b l l' Hab _ IH']; [reflexivity|].
  apply Forall_cons in Hfree as [Ha Hl]. f_equal; [|apply IH', Hl].
  apply reference_free_inv in Ha as [Hn Ha].
  unfold resolve_child in Hab. rewrite Hn in Hab. eapply IH; eassumption.
Qed.

Lemma extend_children_Ok (fragment removed : node) (own : list node) :
  children fragment = Some own ->
  extend_children fragment removed
  = Ok (set_children fragment (own ++ get_children removed)).
Proof.
  intros Hown. unfold extend_children, get_children.
  destruct fragment as [nm p f c ch]. simpl in Hown. subst ch.
  destruct (children removed) as [[|x l]|]; simpl; unfold set_children; simpl;
    rewrite ?app_nil_r; reflexivity.
Qed.

Lemma resolve_children_names (depth : nat) (register : list node)
    (l l' : list node) :
  mapM (resolve_child depth register) l = Ok l' -> map name l' = map name l.
Proof.
  intros H%mapM_Ok. induction H as [|a b l l' Hab _ IH]; [reflexivity|].
  simpl. rewrite IH. f_equal. eapply resolve_child_name, Hab.
Qed.

(** C4: a placeholder child is replaced, at its own position in the
    children of its parent, by the referenced fragment whose children are the
    fragment's own children followed by the placeholder's local children;
    the expansion then goes on inside that fragment, and touches nothing
    when those children hold no further reference.  No sort is involved:
    this is [_resolve_template], which runs before [sort_children]. *)
Theorem reference_merge (depth : nat) (register : list node)
    (schema schema' placeholder fragment : node) (pre post own : list node) :
  children schema = Some (pre ++ placeholder :: post) ->
  char_in reference_indicator (name placeholder) = true ->
  _get_in_register register (name placeholder) = Ok fragment ->
  children fragment = Some own ->
  _resolve_template (S depth) register schema = Ok schema' ->
  let merged := set_children fragment (own ++ get_children placeholder) in
  exists expanded,
    get_children schema' !! length pre = Some expanded /\
    length (get_children schema') = length (pre ++ placeholder :: post) /\
    _resolve_template depth register merged = Ok expanded /\
    name expanded = name fragment /\
    map name (get_children expanded)
    = map name (own ++ get_children placeholder) /\
    (forallb reference_free (own ++ get_children placeholder) = true ->
     expanded = merged).
Proof.
  intros Hch Hmark Hfrag Hown H merged.
  rewrite _resolve_template_S, Hch in H. inv_bind H as ch' Hch'.
  injection H as <-. pose proof (mapM_Ok_length _ _ _ Hch') as Hlen.
  apply mapM_Ok in Hch'.
  apply Forall2_app_inv_l in Hch' as (pre' & rest & Hpre & Hrest & ->).
  inversion Hrest as [|? expanded ? post' Hexp Hpost]; subst.
  exists expanded. unfold get_children at 1 2. simpl.
  unfold resolve_child in Hexp. rewrite Hmark, Hfrag in Hexp. cbn in Hexp.
  rewrite (extend_children_Ok _ _ _ Hown) in Hexp. cbn in Hexp.
  fold merged in Hexp. repeat split.
  - rewrite (Forall2_length _ _ _ Hpre). apply list_lookup_middle. reflexivity.
  - exact Hlen.
  - exact Hexp.
  - apply _resolve_template_name in Hexp. exact Hexp.
  - destruct depth as [|depth]; [discriminate|].
    rewrite _resolve_template_S in Hexp. simpl in Hexp.
    inv_bind Hexp as kids Hkids. injection Hexp as <-.
    unfold get_children. simpl. eapply resolve_children_names, Hkids.
  - intros Hfree. eapply _resolve_template_reference_free; [|exact Hexp].
    exact Hfree.
Qed.

(** ** Where the reference marker remains *)

Lemma all_names_unfold (P : string -> bool) (t : node) :
  all_names P t = P (name t) && forallb (all_names P) (get_children t).
Proof. destruct t as [nm p f c [ch|]]; reflexivity. Qed.

Lemma sort_children_name (depth : nat) (x y : node) :
  sort_children depth x = Ok y -> name y = name x.
Proof.
  destruct depth as [|depth]; [discriminate|]. simpl.
  destruct (0 <? length (get_children x))%nat.
  - intros H. inv_bind H as sc Hsc. inv_bind H as dc Hdc.
    injection H as <-. reflexivity.
  - intros [= <-]. reflexivity.
Qed.

Lemma sort_children_all_names (P : string -> bool) (depth : nat) (x y : node) :
  sort_children depth x = Ok y -> all_names P x = true -> all_names P y = true.
Proof.
  revert x y. induction depth as [|depth IH]; intros x y; [discriminate|].
  simpl. destruct (0 <? length (get_children x))%nat; [|intros [= <-]; tauto].
  intros H. inv_bind H as sc Hsc. inv_bind H as dc Hdc. injection H as <-.
  rewrite !all_names_unfold. unfold get_children at 2. simpl.
  intros [Hn Hch]%andb_true_iff. rewrite Hn. simpl.
  apply forallb_Forall. apply forallb_Forall in Hch.
  apply (sorted_Ok _ key_le_total key_le_trans) in Hsc as [Hperm _].
  rewrite Hperm in Hch. clear Hperm. apply mapM_Ok in Hdc.
  induction Hdc as [|a b l l' Hab _ IH']; constructor.
  - apply Forall_cons in Hch as [Ha _]. eapply IH; eassumption.
  - apply IH'. apply Forall_cons in Hch as [_ Hl]. exact Hl.
Qed.

Lemma _resolve_template_all_names (register : list node) (depth : nat)
    (x y : node) :
  let P nm := unmarked nm || registered register nm in
  _resolve_template depth register x = Ok y ->
  P (name x) = true -> all_names P y = true.
Proof.
  intros P. revert x y. induction depth as [|depth IH]; intros x y;
    [discriminate|].
  rewrite _resolve_template_S. rewrite all_names_unfold.
  destruct (children x) as [ch|] eqn:Hx.
  - intros H Hn. inv_bind H as ch' Hch. injection H as <-.
    unfold get_children. simpl. rewrite Hn. simpl.
    apply forallb_Forall. apply mapM_Ok in Hch. clear Hx.
    induction Hch as [|a b l l' Hab _ IH']; [constructor|].
    constructor; [|exact IH'].
    unfold resolve_child in Hab.
    destruct (char_in reference_indicator (name a)) eqn:Hmark.
    + inv_bind Hab as fragment Hf. inv_bind Hab as merged Hm.
      apply (IH _ _ Hab). apply extend_children_name in Hm. rewrite Hm.
      apply _get_in_register_Ok in Hf as (Hname & _ & Hreg).
      unfold P. rewrite Hname, Hreg. apply orb_true_r.
    + apply (IH _ _ Hab). unfold P, unmarked. rewrite Hmark. reflexivity.
  - intros [= <-] Hn. unfold get_children. rewrite Hx, Hn. reflexivity.
Qed.

Lemma char_in_str_replace (c : ascii) (s : string) :
  char_in c (str_replace c "" s) = false.
Proof.
  induction s as [|a s IH]; simpl; [reflexivity|].
  destruct (ascii_eqb a c) eqn:H; simpl; [exact IH|]. rewrite H, IH. reflexivity.
Qed.

Lemma _resolve_unmarked (schema : node) :
  forall path,
    Forall (fun seg => char_in reference_indicator seg = false) path ->
    Forall unmarked_path (_resolve schema path).
Proof.
  induction schema as [nm p f c|nm p f c ch IH] using node_ind'; intros path Hp;
    simpl; [constructor|].
  induction IH as [|x ch Hx _ IHch]; simpl; [constructor|].
  assert (Hp' : Forall (fun seg => char_in reference_indicator seg = false)
                  (path ++ [str_replace reference_indicator "" (name x)])).
  { apply Forall_app. split; [exact Hp|].
    constructor; [apply char_in_str_replace | constructor]. }
  constructor; [exact Hp'|].
  apply Forall_app. split; [apply Hx, Hp' | exact IHch].
Qed.

Lemma resolve_unmarked (schema : node) : Forall unmarked_path (resolve schema).
Proof.
  unfold resolve.
  assert (Hroot : Forall (fun seg => char_in reference_indicator seg = false)
                    [str_replace reference_indicator "" (name schema)])
    by (constructor; [apply char_in_str_replace | constructor]).
  constructor; [exact Hroot | apply _resolve_unmarked, Hroot].
Qed.

(** C1, amended: in the tree that [resolve_template] returns, a name that
    still carries '@' is the name of a registered fragment (the expanded
    copy keeps the name it is registered under), and the marker is gone from
    every segment of the flattened entries. *)
Theorem resolve_template_markers (depth : nat) (register : list node)
    (nm : string) (t : node) :
  resolve_template depth register nm = Ok t ->
  all_names (fun n => unmarked n || registered register n) t = true /\
  Forall unmarked_path (resolve t).
Proof.
  unfold resolve_template. intros H.
  inv_bind H as root Hroot. inv_bind H as built Hbuilt.
  split; [|apply resolve_unmarked].
  eapply sort_children_all_names; [exact H|].
  eapply _resolve_template_all_names; [exact Hbuilt|].
  apply _get_in_register_Ok in Hroot as (Hname & _ & Hreg).
  cbv beta. rewrite Hname, Hreg. apply orb_true_r.
Qed.

(** ** The depth bound

    A result does not depend on the depth allowed: what is returned within
    [depth] is returned within any greater depth. *)

Lemma mapM_impl {A B} (f g : A -> result B) (l : list A) (l' : list B) :
  (forall x y, f x = Ok y -> g x = Ok y) ->
  mapM f l = Ok l' -> mapM g l = Ok l'.
Proof.
  intros Hfg H%mapM_Ok. apply mapM_Ok.
  eapply Forall2_impl; [exact H | exact Hfg].
Qed.

Lemma _resolve_template_S_depth (depth : nat) (register : list node) (x y : node) :
  _resolve_template depth register x = Ok y ->
  _resolve_template (S depth) register x = Ok y.
Proof.
  revert x y. induction depth as [|depth IH]; intros x y; [discriminate|].
  rewrite (_resolve_template_S (S depth)), (_resolve_template_S depth).
  destruct (children x) as [ch|]; [|tauto].
  intros H. inv_bind H as ch' Hch. injection H as <-.
  assert (Hchild : forall a b,
            resolve_child depth register a = Ok b ->
            resolve_child (S depth) register a = Ok b);
    [|rewrite (mapM_impl _ _ _ _ Hchild Hch); reflexivity].
  intros a b. unfold resolve_child.
  destruct (char_in reference_indicator (name a)); [|apply IH].
  intros H. inv_bind H as fragment Hf. inv_bind H as merged Hm.
  rewrite (bind_Ok_l _ _ _ Hf), (bind_Ok_l _ _ _ Hm). apply IH, H.
Qed.

Lemma sort_children_S_depth (depth : nat) (x y : node) :
  sort_children depth x = Ok y -> sort_children (S depth) x = Ok y.
Proof.
  revert x y. induction depth as [|depth IH]; intros x y; [discriminate|].
  cbn [sort_children]. destruct (0 <? length (get_children x))%nat; [|tauto].
  intros H. inv_bind H as sc Hsc. inv_bind H as dc Hdc. injection H as <-.
  rewrite (bind_Ok_l _ _ _ Hsc).
  rewrite (bind_Ok_l _ _ _ (mapM_impl _ (sort_children (S depth)) _ _ IH Hdc)).
  reflexivity.
Qed.

Lemma resolve_template_depth (depth depth' : nat) (register : list node)
    (nm : string) (t : node) :
  (depth <= depth')%nat ->
  resolve_template depth register nm = Ok t ->
  resolve_template depth' register nm = Ok t.
Proof.
  induction 1 as [|depth' _ IH]; [tauto|].
  intros H. specialize (IH H). clear H. unfold resolve_template in *.
  inv_bind IH as root Hroot. inv_bind IH as built Hbuilt.
  rewrite (bind_Ok_l _ _ _ Hroot).
  rewrite (bind_Ok_l _ _ _ (_resolve_template_S_depth _ _ _ _ Hbuilt)).
  apply sort_children_S_depth, IH.
Qed.

(** ** The path filter *)

Lemma py_all_app (l k : list bool) : py_all (l ++ k) = py_all l && py_all k.
Proof. unfold py_all. apply forallb_app. Qed.

Lemma contains_elements_Some (tok : string) (path : list string) :
  forall is_in outs,
  exists outs',
    contains_elements (Some tok) path is_in outs
    = Ok (is_in || existsb (str_in tok) path, outs')
    /\ py_all outs' = py_all outs.
Proof.
  induction path as [|seg path IH]; intros is_in outs; simpl.
  - exists outs. rewrite orb_false_r. split; reflexivity.
  - destruct (str_in tok seg); simpl.
    + destruct (IH true (outs ++ [true])) as (outs' & -> & Hall).
      exists outs'. rewrite orb_true_r. split; [reflexivity|].
      rewrite Hall, py_all_app. simpl. apply andb_true_r.
    + apply IH.
Qed.









(** ** The default permission and the control directory *)

(** C8: the entry of a node without 'permission' carries the int 777
    written in decimal at lines 180 and 224, which is not 0o777 = 511. *)
Theorem default_permission_decimal :
  map e_permission
    (resolve (Node "show" None (Some true) None
                (Some [Node "shots" None None None None])))
  = [PyInt 777; PyInt 777]
  /\ PyInt 777 <> PyInt 511.
Proof. split; [reflexivity | discriminate]. Qed.

(** The recursive walk skips every entry whose name starts with '.git'. *)
Lemma _register_templates_skips (depth : nat) (root : fs_entry)
    (items : list node) :
  _register_templates depth root = Ok items ->
  Forall (fun item => startswith (name item) ".git" = false) items.
Proof.
  destruct depth as [|depth]; [discriminate|]. simpl.
  destruct root as [nm m data|nm m entries]; [intros [= <-]; constructor|].
  intros H. inv_bind H as sorted_entries Hs. inv_bind H as found Hf.
  injection H as <-. apply mapM_Ok in Hf. clear Hs.
  induction Hf as [|e o l l' He _ IH]; [constructor|].
  simpl. destruct (startswith (fs_name e) ".git") eqn:Hgit.
  - injection He as <-. exact IH.
  - destruct e as [nm' m' data'|nm' m' entries'].
    + injection He as <-. constructor; [exact Hgit | exact IH].
    + inv_bind He as ch Hch. injection He as <-.
      constructor; [exact Hgit | exact IH].
Qed.

(** C9: [register_templates] has no such test for the entries of the
    template folder itself: a top-level '.git' becomes a registered template,
    while the nested '.git' and '.gitignore' are skipped. *)
Theorem top_level_git_registered :
  exists register,
    __init__ 3 example_folder = Ok register /\
    map name register = [".git"; "@+show+@"] /\
    map (fun item => map name (get_children item)) register
    = [["HEAD"]; ["shots"; "readme.txt"]].
Proof. eexists. split; [vm_compute; reflexivity | split; reflexivity]. Qed.

(** ** Materialization *)

Section ToPathFacts.

Variable str_format_other : string -> list string -> dict -> result string.


Lemma list_in_false (heap : list entry) (result_path : list string)
    (result_paths : list nat) :
  list_in heap result_path result_paths = false.
Proof.
  unfold list_in. induction result_paths as [|r l IH]; simpl; [reflexivity|].
  rewrite IH. destruct (heap !! r); reflexivity.
Qed.

Lemma kept_insert_ne (data : dict) (heap : list entry) (r x : nat) (e : entry) :
  x <> r -> (kept str_format_other) data (<[r := e]> heap) x = (kept str_format_other) data heap x.
Proof.
  intros Hne. unfold kept. rewrite list_lookup_insert_ne by congruence.
  reflexivity.
Qed.

(** The loop keeps the references whose path string is formatted, in their
    order, and writes exactly the entries behind them. *)
Lemma to_path_loop_spec (data : dict) (paths : list nat) :
  NoDup paths ->
  forall heap result_paths,
    exists heap',
      (to_path_loop str_format_other) data paths heap result_paths
      = (heap', result_paths ++ filter (fun r => (kept str_format_other) data heap r = true) paths)
      /\ length heap' = length heap
      /\ forall r,
           heap' !! r = if bool_decide (r ∈ paths)
                        then (materialized str_format_other) data <$> heap !! r
                        else heap !! r.
Proof.
  induction 1 as [|r paths Hr Hnd IH]; intros heap result_paths.
  - exists heap. simpl. rewrite app_nil_r. repeat split. 
  - simpl.
    destruct (heap !! r) as [entry|] eqn:Hentry.
    + rewrite list_in_false. simpl.
      fold (path_string str_format_other data entry). unfold materialized.
      destruct ((path_string str_format_other) data entry) as [final_path|err] eqn:Hfmt; simpl.
      * destruct (IH (<[r := set_path entry (Joined final_path)]> heap)
                    (result_paths ++ [r])) as (heap' & Hloop & Hlen & Hget).
        exists heap'. rewrite Hloop. repeat split.
        -- rewrite filter_cons_True by (unfold kept; rewrite Hentry, Hfmt; reflexivity).
           rewrite <- app_assoc. simpl. do 3 f_equal.
           apply filter_ext_Forall. apply Forall_forall. intros x Hx.
           rewrite kept_insert_ne by (intros ->; contradiction). reflexivity.
        -- rewrite Hlen. apply length_insert.
        -- intros x. rewrite Hget. destruct (decide (x = r)) as [->|Hne].
           ++ rewrite (bool_decide_eq_false_2 _ Hr).
              rewrite (bool_decide_eq_true_2 (r ∈ r :: paths)) by constructor.
              rewrite list_lookup_insert_eq by (eapply lookup_lt_Some, Hentry).
              rewrite Hentry. simpl. rewrite Hfmt. reflexivity.
           ++ rewrite list_lookup_insert_ne by congruence.
              apply (f_equal (fun b : bool => if b then _ else _)).
              apply bool_decide_ext. rewrite elem_of_cons. tauto.
      * destruct (IH heap result_paths) as (heap' & Hloop & Hlen & Hget).
        exists heap'. rewrite Hloop. repeat split; [|exact Hlen|].
        -- rewrite filter_cons_False; [reflexivity|].
           unfold kept. rewrite Hentry, Hfmt. discriminate.
        -- intros x. rewrite Hget. destruct (decide (x = r)) as [->|Hne].
           ++ rewrite (bool_decide_eq_false_2 _ Hr).
              rewrite (bool_decide_eq_true_2 (r ∈ r :: paths)) by constructor.
              rewrite Hentry. simpl. rewrite Hfmt. reflexivity.
           ++ apply (f_equal (fun b : bool => if b then _ else _)).
              apply bool_decide_ext. rewrite elem_of_cons. tauto.
    + destruct (IH heap result_paths) as (heap' & Hloop & Hlen & Hget).
      exists heap'. rewrite Hloop. repeat split; [|exact Hlen|].
      * rewrite filter_cons_False; [reflexivity|].
        unfold kept. rewrite Hentry. discriminate.
      * intros x. rewrite Hget. destruct (decide (x = r)) as [->|Hne].
        -- rewrite (bool_decide_eq_false_2 _ Hr).
           rewrite (bool_decide_eq_true_2 (r ∈ r :: paths)) by constructor.
           rewrite Hentry. reflexivity.
        -- apply (f_equal (fun b : bool => if b then _ else _)).
           apply bool_decide_ext. rewrite elem_of_cons. tauto.
Qed.

(** C10: [_to_path] works in place.  It keeps, in their order, the
    references of its argument whose entry has a path that formats
    ([kept]), and returns these same references; the entry behind each of
    them has had its 'path', a list of segments before, overwritten with the
    formatted path string, its other fields untouched; the store has no
    other change. *)
Theorem to_path_in_place (data : dict) (heap heap' : list entry)
    (paths result_paths : list nat) :
  NoDup paths ->
  (_to_path str_format_other) heap paths data = (heap', result_paths) ->
  result_paths
  = filter (fun r => kept str_format_other data heap r = true) paths /\
  sublist result_paths paths /\
  length heap' = length heap /\
  (forall r, r ∈ result_paths ->
     exists e final_path,
       heap !! r = Some e /\
       path_string str_format_other data e = Ok final_path /\
       heap' !! r = Some (Entry (Joined final_path) (e_permission e)
                                (e_folder e) (e_content e))) /\
  (forall r, r ∉ result_paths -> heap' !! r = heap !! r).
Proof.
  intros Hnd H. unfold _to_path in H.
  destruct (to_path_loop_spec data paths Hnd heap []) as (h & Hloop & Hlen & Hget).
  rewrite Hloop in H. injection H as -> <-. simpl.
  split; [reflexivity|].
  split; [apply sublist_filter|]. split; [exact Hlen|]. split.
  - intros r [Hk Hr]%list_elem_of_filter. unfold kept in Hk.
    destruct (heap !! r) as [e|] eqn:He; [|discriminate].
    destruct ((path_string str_format_other) data e) as [final_path|] eqn:Hfmt; [|discriminate].
    exists e, final_path. split; [reflexivity|]. split; [exact Hfmt|].
    rewrite Hget, (bool_decide_eq_true_2 _ Hr), He. simpl.
    unfold materialized. rewrite Hfmt. reflexivity.
  - intros r Hr. rewrite Hget. case_bool_decide as Hin; [|reflexivity].
    assert (Hk : (kept str_format_other) data heap r <> true)
      by (intros Hk; apply Hr, list_elem_of_filter; split; assumption).
    unfold kept in Hk. destruct (heap !! r) as [e|]; [|reflexivity]. simpl.
    unfold materialized. destruct (path_string str_format_other data e); [|reflexivity].
    contradiction Hk. reflexivity.
Qed.

(** C5: two entries with the same path are both (kept str_format_other).  The test of line 150
    looks for the list of segments among the entries (kept str_format_other) so far, where no
    list is, so it never suppresses anything. *)
Theorem duplicate_paths_kept :
  exists heap,
    build_path_results str_format_other 4 duplicate_register "show" ∅
    = Ok (heap, [0; 1; 2; 3]%nat) /\
    map e_path heap
    = [Joined "show"; Joined "show/seq"; Joined "show/seq/a";
       Joined "show/seq/a"].
Proof. eexists. split; vm_compute; reflexivity. Qed.

End ToPathFacts.

(** ** [str.format] on path strings *)

Lemma str_app_cons (a : ascii) (s t : string) :
  (String a s ++ t = String a (s ++ t))%string.
Proof. reflexivity. Qed.

Lemma str_app_nil_r (s : string) : (s ++ "" = s)%string.
Proof. induction s as [|a s IH]; [reflexivity|]. rewrite str_app_cons, IH. reflexivity. Qed.

Lemma str_app_assoc (s t u : string) : ((s ++ t) ++ u = s ++ (t ++ u))%string.
Proof.
  induction s as [|a s IH]; [reflexivity|]. rewrite !str_app_cons, IH. reflexivity.
Qed.

Lemma ascii_eqb_refl (a : ascii) : ascii_eqb a a = true.
Proof. apply Ascii.eqb_refl. Qed.

Lemma prepend_nil (o : option (result string)) : prepend "" o = o.
Proof. destruct o as [[x|e]|]; reflexivity. Qed.

Lemma prepend_prepend (a b : string) (o : option (result string)) :
  prepend a (prepend b o) = prepend (a ++ b)%string o.
Proof. destruct o as [[x|e]|]; simpl; [|reflexivity..]. rewrite str_app_assoc. reflexivity. Qed.

Lemma brace_free_cons (c : ascii) (s : string) :
  brace_free (String c s) = true ->
  ascii_eqb c "{" = false /\ ascii_eqb c "}" = false /\ brace_free s = true.
Proof.
  unfold brace_free. simpl.
  destruct (ascii_eqb c "{"), (ascii_eqb c "}"); simpl;
    rewrite ?andb_false_r; try discriminate.
  intros H. repeat split. exact H.
Qed.

Section FormatFacts.

Variables (args : list string) (kwargs : dict).

Lemma format_scan_text (lit : string) :
  brace_free lit = true ->
  forall st rest,
    format_scan args kwargs st InText (lit ++ rest)
    = prepend lit (format_scan args kwargs st InText rest).
Proof.
  induction lit as [|c lit IH]; intros Hb st rest.
  - change ("" ++ rest)%string with rest. rewrite prepend_nil. reflexivity.
  - apply brace_free_cons in Hb as (H1 & H2 & Hb).
    rewrite str_app_cons. cbn [format_scan]. rewrite H1, H2, IH by exact Hb.
    rewrite prepend_prepend. reflexivity.
Qed.

Lemma format_scan_field (k : string) :
  str_forallb key_char k = true ->
  forall st acc rest,
    format_scan args kwargs st (InField acc) (k ++ String "}" rest)
    = match get_field args kwargs st (acc ++ k) with
      | None => None
      | Some (Raise e) => Some (Raise e)
      | Some (Ok (v, st')) =>
          prepend v (format_scan args kwargs st' InText rest)
      end.
Proof.
  induction k as [|c k IH]; intros Hk st acc rest.
  - change ("" ++ String "}" rest)%string with (String "}" rest).
    cbn [format_scan]. rewrite ascii_eqb_refl, str_app_nil_r. reflexivity.
  - simpl in Hk. apply andb_true_iff in Hk as [Hc Hk].
    unfold key_char in Hc. apply andb_true_iff in Hc as [Hc1 Hc2].
    apply negb_true_iff in Hc1, Hc2.
    rewrite str_app_cons. cbn [format_scan]. rewrite Hc2, Hc1, IH by exact Hk.
    rewrite str_app_assoc. reflexivity.
Qed.

Lemma get_field_key (st : numbering) (k : string) :
  simple_key k = true ->
  get_field args kwargs st k
  = match kwargs !! k with
    | Some v => Some (Ok (v, st))
    | None => Some (Raise (KeyError k))
    end.
Proof.
  unfold simple_key. intros [[H1 H2]%andb_true_iff _]%andb_true_iff.
  apply negb_true_iff in H1, H2. destruct k as [|c k]; [discriminate|].
  unfold get_field. rewrite H2. reflexivity.
Qed.

Lemma format_scan_open (st : numbering) (c : ascii) (s : string) :
  ascii_eqb c "{" = false ->
  format_scan args kwargs st InText (String "{" (String c s))
  = format_scan args kwargs st (InField "") (String c s).
Proof.
  intros Hc. cbn [format_scan]. rewrite ascii_eqb_refl, Hc. reflexivity.
Qed.

Lemma format_scan_key (k : string) :
  simple_key k = true ->
  forall st rest,
    format_scan args kwargs st InText (String "{" (k ++ String "}" rest))
    = match kwargs !! k with
      | Some v => prepend v (format_scan args kwargs st InText rest)
      | None => Some (Raise (KeyError k))
      end.
Proof.
  intros Hk st rest. pose proof (get_field_key st k Hk) as Hget.
  destruct k as [|c k]; [discriminate|].
  unfold simple_key in Hk. apply andb_true_iff in Hk as [_ Hchars].
  assert (Hc : ascii_eqb c "{" = false).
  { simpl in Hchars. apply andb_true_iff in Hchars as [Hc _].
    unfold key_char, field_special in Hc.
    destruct (ascii_eqb c "{"); [discriminate | reflexivity]. }
  rewrite str_app_cons, format_scan_open by exact Hc.
  rewrite <- str_app_cons.
  rewrite format_scan_field by exact Hchars.
  change ("" ++ String c k)%string with (String c k). rewrite Hget.
  destruct (kwargs !! String c k); reflexivity.
Qed.

End FormatFacts.

(** ** Missing keys *)

Section PathStringFacts.

Variable str_format_other : string -> list string -> dict -> result string.
Variable data : dict.


Lemma format_scan_item (seg : string) :
  format_plain seg = true ->
  forall st rest,
    format_scan [] data st InText (path_item seg ++ rest)
    = match segment_value data seg with
      | Ok v => prepend v (format_scan [] data st InText rest)
      | Raise e => Some (Raise e)
      end.
Proof.
  unfold format_plain, path_item, segment_value. intros Hseg st rest.
  destruct (char_in "+" seg).
  - change ("{" ++ split_1 seg ++ "}")%string
      with (String "{" (split_1 seg ++ "}")).
    rewrite str_app_cons, str_app_assoc.
    change ("}" ++ rest)%string with (String "}" rest).
    rewrite format_scan_key by exact Hseg.
    destruct (data !! split_1 seg); reflexivity.
  - apply format_scan_text, Hseg.
Qed.

Lemma join_cons_cons (sep x y : string) (l : list string) :
  join sep (x :: y :: l) = (x ++ sep ++ join sep (y :: l))%string.
Proof. reflexivity. Qed.

Lemma format_scan_join (segs : list string) :
  Forall (fun seg => format_plain seg = true) segs ->
  forall st,
    format_scan [] data st InText (join os_sep (map path_item segs))
    = Some (vals ← mapM (segment_value data) segs; mret (join os_sep vals)).
Proof.
  induction 1 as [|x l Hx Hl IH]; intros st; [reflexivity|].
  destruct l as [|y l].
  - cbn [map mapM]. change (join os_sep [path_item x]) with (path_item x).
    rewrite <- (str_app_nil_r (path_item x)), format_scan_item by exact Hx.
    destruct (segment_value data x) as [v|e]; [|reflexivity].
    cbn. rewrite str_app_nil_r. reflexivity.
  - change (map path_item (x :: y :: l))
      with (path_item x :: path_item y :: map path_item l).
    rewrite join_cons_cons, format_scan_item by exact Hx.
    change (path_item y :: map path_item l) with (map path_item (y :: l)).
    rewrite format_scan_text by reflexivity. rewrite IH.
    change (mapM (segment_value data) (x :: y :: l))
      with (v ← segment_value data x;
            k ← mapM (segment_value data) (y :: l); mret (v :: k)).
    destruct (segment_value data x) as [v|e]; [|reflexivity].
    destruct (mapM (segment_value data) (y :: l)) as [k|e] eqn:Hk;
      [|reflexivity].
    apply mapM_Ok_length in Hk. destruct k as [|w k]; [discriminate|].
    reflexivity.
Qed.

Lemma keys_present_cons (x : string) (l : list string) :
  keys_present data (x :: l)
  = (if char_in "+" x then bool_decide (is_Some (data !! split_1 x)) else true)
    && keys_present data l.
Proof.
  unfold keys_present, required_keys. cbn [List.filter].
  destruct (char_in "+" x); reflexivity.
Qed.

Lemma mapM_segment_value_present (segs : list string) :
  keys_present data segs = true ->
  mapM (segment_value data) segs = Ok (map (substitute data) segs).
Proof.
  induction segs as [|x l IH]; [reflexivity|].
  rewrite keys_present_cons. intros [Hx Hl]%andb_true_iff.
  cbn [mapM map]. rewrite (IH Hl). unfold segment_value, substitute.
  destruct (char_in "+" x); [|reflexivity].
  apply bool_decide_eq_true_1 in Hx as [v Hv]. rewrite Hv. reflexivity.
Qed.

Lemma mapM_segment_value_absent (segs : list string) :
  keys_present data segs = false ->
  is_Ok (mapM (segment_value data) segs) = false.
Proof.
  induction segs as [|x l IH]; [discriminate|].
  rewrite keys_present_cons. intros H. cbn [mapM].
  destruct (segment_value data x) as [v|e] eqn:Hv; [|reflexivity].
  assert (Hl : keys_present data l = false).
  { apply andb_false_iff in H as [H|H]; [|exact H].
    unfold segment_value in Hv. destruct (char_in "+" x); [|discriminate].
    apply bool_decide_eq_false_1 in H.
    destruct (data !! split_1 x) as [w|]; [|discriminate].
    contradiction H. eexists; reflexivity. }
  specialize (IH Hl). cbn.
  destruct (mapM (segment_value data) l); [discriminate | reflexivity].
Qed.

(** The path string of a plain entry: the segments joined, each variable
    replaced by its value, when the data has every key; an error if not. *)
Lemma path_string_plain (e : entry) :
  plain_entry e ->
  if keys_present data (segments e)
  then (path_string str_format_other) data e
       = Ok (join os_sep (map (substitute data) (segments e)))
  else is_Ok ((path_string str_format_other) data e) = false.
Proof.
  intros Hplain. unfold path_string, format.
  fold (segments e). rewrite format_scan_join by exact Hplain.
  destruct (keys_present data (segments e)) eqn:Hkeys.
  - rewrite mapM_segment_value_present by exact Hkeys. reflexivity.
  - apply mapM_segment_value_absent in Hkeys.
    destruct (mapM (segment_value data) (segments e)); [discriminate | reflexivity].
Qed.

Lemma kept_has_keys (heap : list entry) (r : nat) :
  Forall plain_entry heap -> (kept str_format_other) data heap r = has_keys data heap r.
Proof.
  intros Hheap. unfold kept, has_keys.
  destruct (heap !! r) as [e|] eqn:He; [|reflexivity].
  assert (Hplain : plain_entry e).
  { rewrite Forall_forall in Hheap. apply Hheap.
    eapply list_elem_of_lookup_2, He. }
  pose proof (path_string_plain e Hplain) as H.
  destruct (keys_present data (segments e)); [rewrite H; reflexivity | exact H].
Qed.


End PathStringFacts.

(** ** [re.match] on the patterns of paths *)

Lemma in_word_class (c : ascii) : in_class word_class c = is_word c.
Proof. destruct c as [[] [] [] [] [] [] [] []]; reflexivity. Qed.

Lemma re_scan_literal (lit : string) :
  plain_literal lit = true ->
  forall rest,
    re_scan RTop (lit ++ rest)
    = option_map (app (literal_items lit)) (re_scan RTop rest).
Proof.
  induction lit as [|c lit IH]; intros Hlit rest.
  - change ("" ++ rest)%string with rest. destruct (re_scan RTop rest); reflexivity.
  - simpl in Hlit. apply andb_true_iff in Hlit as [Hc Hlit].
    rewrite str_app_cons. cbn [re_scan]. rewrite (IH Hlit).
    unfold literal_items. cbn [list_ascii_of_string map].
    assert (Hparen : ascii_eqb c "(" = false).
    { unfold re_plain_char in Hc.
      destruct c as [[] [] [] [] [] [] [] []]; try reflexivity; discriminate. }
    rewrite Hparen. unfold re_plain_char in Hc.
    destruct (ascii_eqb c ".").
    + destruct (re_scan RTop rest); reflexivity.
    + simpl in Hc. apply negb_true_iff in Hc. rewrite Hc.
      destruct (re_scan RTop rest); reflexivity.
Qed.




Lemma group_names_app (l k : list re_item) :
  group_names (l ++ k) = group_names l ++ group_names k.
Proof. unfold group_names. apply omap_app. Qed.

Lemma group_names_literal (s : string) : group_names (literal_items s) = [].
Proof.
  unfold literal_items. induction (list_ascii_of_string s) as [|c l IH];
    [reflexivity|].
  cbn [map]. destruct (ascii_eqb c "."); exact IH.
Qed.




Lemma re_match_literal (lit : string) :
  forall items rest groups,
    re_items_match (literal_items lit ++ items) (lit ++ rest) groups
    = re_items_match items rest groups.
Proof.
  induction lit as [|c lit IH]; intros items rest groups; [reflexivity|].
  rewrite str_app_cons. unfold literal_items.
  cbn [list_ascii_of_string map app].
  destruct (ascii_eqb c ".") eqn:Hc.
  - apply Ascii.eqb_eq in Hc as ->. cbn [re_items_match].
    change (ascii_eqb "." newline) with false. cbv iota. apply IH.
  - cbn [re_items_match]. rewrite ascii_eqb_refl. apply IH.
Qed.


Lemma str_take_app (v rest : string) : str_take (String.length v) (v ++ rest) = v.
Proof.
  induction v as [|c v IH]; [destruct rest; reflexivity|].
  rewrite str_app_cons. cbn [String.length str_take]. rewrite IH. reflexivity.
Qed.

Lemma str_drop_app (v rest : string) : str_drop (String.length v) (v ++ rest) = rest.
Proof.
  induction v as [|c v IH]; [destruct rest; reflexivity|].
  rewrite str_app_cons. cbn [String.length str_drop]. exact IH.
Qed.

Section MatchFacts.

(** The value of the variable: word characters, at least one. *)
Variable v : string.
Hypothesis v_word : str_forallb is_word v = true.
Hypothesis v_nonempty : v <> "".






End MatchFacts.

(** ** Building, then parsing *)

Lemma re_plain_char_brace (c : ascii) :
  re_plain_char c = true -> ascii_eqb c "{" = false /\ ascii_eqb c "}" = false.
Proof.
  destruct c as [[] [] [] [] [] [] [] []]; (discriminate || (split; reflexivity)).
Qed.

Lemma plain_literal_brace_free (s : string) :
  plain_literal s = true -> brace_free s = true.
Proof.
  unfold brace_free. induction s as [|c s IH]; [reflexivity|].
  simpl. intros [Hc Hs]%andb_true_iff.
  apply re_plain_char_brace in Hc as [-> ->]. simpl. apply IH, Hs.
Qed.




Lemma list_sort_perm {A} (le : A -> A -> bool) (l : list A) :
  Permutation l (list_sort le l).
Proof.
  unfold list_sort.
  rewrite <- (sort_decorated_perm le (map (fun x => (x, x)) l)).
  rewrite map_map. simpl. rewrite map_id. reflexivity.
Qed.

Section RoundTrip.

Variable str_format_other : string -> list string -> dict -> result string.
Variable re_match_other : string -> string -> result (option dict).





(** The loop of [(parse str_format_other re_match_other)] keeps what it has and adds every non-empty
    [groupdict] of a pattern that matches. *)
Lemma parse_loop_collects (path : string) (parsers : list string) :
  Forall (fun p => exists m, (re_match re_match_other) p path = Ok m) parsers ->
  forall matched_results,
  exists matched,
    (parse_loop re_match_other) parsers path matched_results = Ok matched /\
    (forall d, d ∈ matched_results -> d ∈ matched) /\
    (forall p d, p ∈ parsers -> (re_match re_match_other) p path = Ok (Some d) -> d <> ∅ ->
                 d ∈ matched).
Proof.
  induction 1 as [|p parsers [m Hm] _ IH]; intros matched_results.
  - exists matched_results. split; [reflexivity|]. split; [tauto|].
    intros p d Hp. apply elem_of_nil in Hp. contradiction.
  - cbn [parse_loop]. rewrite Hm. cbn.
    destruct m as [result|].
    + destruct (negb (bool_decide (result = ∅))
                && negb (bool_decide (result ∈ matched_results))) eqn:Hadd.
      * destruct (IH (matched_results ++ [result])) as (matched & -> & Hacc & Hnew).
        exists matched. split; [reflexivity|]. split.
        -- intros d Hd. apply Hacc, elem_of_app. left. exact Hd.
        -- intros q d [->|Hq]%elem_of_cons Hq' Hd; [|eapply Hnew; eassumption].
           rewrite Hm in Hq'. injection Hq' as ->.
           apply Hacc, elem_of_app. right. constructor.
      * destruct (IH matched_results) as (matched & -> & Hacc & Hnew).
        exists matched. split; [reflexivity|]. split; [exact Hacc|].
        intros q d [->|Hq]%elem_of_cons Hq' Hd; [|eapply Hnew; eassumption].
        rewrite Hm in Hq'. injection Hq' as ->.
        apply andb_false_iff in Hadd as [Hadd|Hadd]; apply negb_false_iff in Hadd;
          apply bool_decide_eq_true_1 in Hadd; [contradiction|].
        apply Hacc, Hadd.
    + destruct (IH matched_results) as (matched & -> & Hacc & Hnew).
      exists matched. split; [reflexivity|]. split; [exact Hacc|].
      intros q d [->|Hq]%elem_of_cons Hq' Hd; [|eapply Hnew; eassumption].
      rewrite Hm in Hq'. discriminate.
Qed.


End RoundTrip.

(** * Further properties of template.py *)

(** ** Lookup in the register *)

(** X1: [_get_in_register] returns the first item of that name, and raises
    [KeyError] exactly when the register holds none. *)
Theorem _get_in_register_first (register : list node) (nm : string) :
  match _get_in_register register nm with
  | Ok item =>
      exists pre post,
        register = pre ++ item :: post /\ name item = nm /\
        Forall (fun x => name x <> nm) pre
  | Raise e =>
      e = KeyError ("template " ++ nm ++ " not found in register") /\
      Forall (fun x => name x <> nm) register
  end.
Proof.
  induction register as [|x register IH]; simpl.
  - split; [reflexivity | constructor].
  - destruct (String.eqb_spec (name x) nm) as [Heq|Hne]; simpl.
    + exists [], register. repeat split; [exact Heq | constructor].
    + destruct (_get_in_register register nm) as [item|e].
      * destruct IH as (pre & post & -> & Hname & Hpre).
        exists (x :: pre), post. repeat split; [exact Hname|].
        constructor; assumption.
      * destruct IH as [-> Hall]. split; [reflexivity|].
        constructor; assumption.
Qed.

Lemma _get_in_register_absent (register : list node) (nm : string) :
  registered register nm = false ->
  _get_in_register register nm
  = Raise (KeyError ("template " ++ nm ++ " not found in register")).
Proof.
  unfold registered. induction register as [|x register IH]; [reflexivity|].
  simpl. intros [Hx Hl]%orb_false_iff. rewrite Hx. simpl. apply IH, Hl.
Qed.

(** ** Missing references *)

(** X2: A placeholder whose name is not registered makes the expansion of its
    parent raise [KeyError], once the siblings before it are expanded. *)
Theorem missing_reference_raises (depth : nat) (register : list node)
    (schema placeholder : node) (pre pre' post : list node) :
  children schema = Some (pre ++ placeholder :: post) ->
  mapM (resolve_child depth register) pre = Ok pre' ->
  char_in reference_indicator (name placeholder) = true ->
  registered register (name placeholder) = false ->
  _resolve_template (S depth) register schema
  = Raise (KeyError ("template " ++ name placeholder ++ " not found in register")).
Proof.
  intros Hch Hpre Hmark Habsent. rewrite _resolve_template_S, Hch.
  assert (Hc : resolve_child depth register placeholder
               = Raise (KeyError ("template " ++ name placeholder
                                  ++ " not found in register"))).
  { unfold resolve_child. rewrite Hmark, _get_in_register_absent by exact Habsent.
    reflexivity. }
  clear Hch. revert pre' Hpre.
  induction pre as [|x pre IH]; intros pre' Hpre.
  - cbn [app mapM]. rewrite Hc. reflexivity.
  - cbn [app mapM] in *. inv_bind Hpre as y Hy. inv_bind Hpre as k Hk.
    rewrite Hy. cbn. specialize (IH k Hk).
    destruct (mapM (resolve_child depth register) (pre ++ placeholder :: post));
      [discriminate|].
    cbn in *. exact IH.
Qed.

(** X3: Every entry point raises [KeyError] on a template name that is not
    registered. *)
Theorem unknown_template_raises
    (str_format_other : string -> list string -> dict -> result string)
    (re_match_other : string -> string -> result (option dict))
    (depth : nat) (register : list node) (nm : string) :
  registered register nm = false ->
  let e := KeyError ("template " ++ nm ++ " not found in register") in
  resolve_template depth register nm = Raise e /\
  (forall startwith contains endswith,
     find_path depth register startwith contains endswith nm = Raise e) /\
  (forall path, parse str_format_other re_match_other depth register path nm
                = Raise e) /\
  (forall data, build_path_results str_format_other depth register nm data
                = Raise e).
Proof.
  intros Habsent e.
  assert (H : resolve_template depth register nm = Raise e).
  { unfold resolve_template. rewrite _get_in_register_absent by exact Habsent.
    reflexivity. }
  split; [exact H|]. split; [|split].
  - intros. unfold find_path. rewrite H. reflexivity.
  - intros. unfold parse. rewrite H. reflexivity.
  - intros. unfold build_path_results. rewrite H. reflexivity.
Qed.

(** ** Reference cycles *)

Lemma extend_children_has_child (nm : string) (fragment removed merged : node) :
  has_child_named nm fragment ->
  extend_children fragment removed = Ok merged ->
  has_child_named nm merged.
Proof.
  intros (c & Hc & Hn). unfold extend_children.
  destruct (children removed) as [[|x l]|]; try (intros [= <-]; exists c; tauto).
  unfold get_children in Hc.
  destruct (children fragment) as [own|] eqn:Hown; [|discriminate].
  intros [= <-]. exists c. split; [|exact Hn].
  unfold get_children. simpl. apply elem_of_app. left. exact Hc.
Qed.

Lemma self_reference_never_expands (register : list node) (nm : string)
    (fragment : node) :
  char_in reference_indicator nm = true ->
  _get_in_register register nm = Ok fragment ->
  has_child_named nm fragment ->
  forall depth x y,
    has_child_named nm x -> _resolve_template depth register x <> Ok y.
Proof.
  intros Hmark Hget Hself. induction depth as [|depth IH]; intros x y Hx;
    [discriminate|].
  rewrite _resolve_template_S. destruct Hx as (c & Hc & Hn).
  unfold get_children in Hc. destruct (children x) as [ch|]; simpl in Hc.
  2: { apply elem_of_nil in Hc. contradiction. }
  intros H. inv_bind H as ch' Hch. clear H. apply mapM_Ok in Hch.
  apply list_elem_of_lookup in Hc as [i Hi].
  destruct (Forall2_lookup_l _ _ _ _ _ Hch Hi) as (c' & _ & Hc').
  unfold resolve_child in Hc'. rewrite Hn, Hmark, Hget in Hc'. cbn in Hc'.
  inv_bind Hc' as merged Hm.
  eapply IH; [|exact Hc'].
  eapply extend_children_has_child; eassumption.
Qed.

(** X4: A fragment that holds a placeholder for itself is never resolved: there
    is no cycle guard, and [resolve_template] raises at every depth. *)
Theorem self_reference_never_resolves (depth : nat) (register : list node)
    (nm : string) (fragment : node) :
  char_in reference_indicator nm = true ->
  _get_in_register register nm = Ok fragment ->
  has_child_named nm fragment ->
  exists e, resolve_template depth register nm = Raise e.
Proof.
  intros Hmark Hget Hself. unfold resolve_template. rewrite Hget. cbn.
  destruct (_resolve_template depth register fragment) as [built|e] eqn:H.
  - exfalso. eapply self_reference_never_expands; eassumption.
  - exists e. reflexivity.
Qed.

(** X22: A template without placeholders below its root does not depend on the
    rest of the register: [resolve_template] gives the registered tree,
    sorted. *)
Theorem resolve_template_without_references (depth : nat)
    (register : list node) (nm : string) (item built : node) :
  _get_in_register register nm = Ok item ->
  forallb reference_free (get_children item) = true ->
  resolve_template depth register nm = Ok built ->
  sort_children depth item = Ok built /\
  forall other, _get_in_register other nm = Ok item ->
                resolve_template depth other nm = Ok built.
Proof.
  intros Hitem Hfree H. unfold resolve_template in H.
  rewrite (bind_Ok_l _ _ _ Hitem) in H. inv_bind H as expanded Hexp.
  pose proof (_resolve_template_reference_free _ _ _ _ Hfree Hexp) as ->.
  split; [exact H|]. intros other Hother. unfold resolve_template.
  rewrite (bind_Ok_l _ _ _ Hother).
  assert (Hsame : _resolve_template depth other item = Ok item).
  { clear -Hfree Hexp. revert item Hfree Hexp.
    induction depth as [|depth IH]; intros item Hfree; [discriminate|].
    rewrite !_resolve_template_S.
    destruct item as [n p f c [ch|]]; cbn [children]; [|reflexivity].
    intros H. inv_bind H as ch' Hch. injection H as H.
    assert (Hch' : mapM (resolve_child depth other) ch = Ok ch).
    { unfold get_children in Hfree. cbn in Hfree.
      apply forallb_Forall in Hfree. apply mapM_Ok. apply mapM_Ok in Hch.
      clear H. induction Hch as [|a b l l' Hab _ IH']; [constructor|].
      apply Forall_cons in Hfree as [Ha Hl].
      apply reference_free_inv in Ha as [Hn Ha].
      constructor; [|exact (IH' Hl)].
      unfold resolve_child in Hab |- *. rewrite Hn in Hab |- *.
      pose proof (_resolve_template_reference_free _ _ _ _ Ha Hab) as Heq.
      subst b. exact (IH _ Ha Hab). }
    rewrite (bind_Ok_l _ _ _ Hch'). reflexivity. }
  rewrite (bind_Ok_l _ _ _ Hsame). exact H.
Qed.

(** ** The flattened entries *)

Lemma _resolve_children (schema : node) (path : list string) :
  _resolve schema path
  = flat_map (fun entry =>
      let nm := str_replace reference_indicator "" (name entry) in
      new_entry (path ++ [nm]) entry :: _resolve entry (path ++ [nm]))
      (get_children schema).
Proof. destruct schema as [nm p f c [ch|]]; reflexivity. Qed.

Lemma _resolve_length (schema : node) :
  forall path, S (length (_resolve schema path)) = node_count schema.
Proof.
  induction schema as [nm p f c|nm p f c ch IH] using node_ind'; intros path;
    [reflexivity|].
  simpl. f_equal. induction IH as [|x ch Hx _ IHch]; [reflexivity|].
  simpl. rewrite length_app, IHch.
  rewrite <- (Hx (path ++ [str_replace reference_indicator "" (name x)])).
  reflexivity.
Qed.

(** X5: [resolve] gives one entry per node of the tree, the entry of the root
    first. *)
Theorem resolve_one_entry_per_node (schema : node) :
  length (resolve schema) = node_count schema /\
  head (resolve schema)
  = Some (new_entry [str_replace reference_indicator "" (name schema)] schema).
Proof.
  split; [|reflexivity]. unfold resolve. cbn [length]. apply _resolve_length.
Qed.

(** In the entries below a node, every path extends the path of the node,
    and the entry of the parent comes before the entry of the child. *)
Lemma _resolve_parent_before (schema : node) :
  forall path l1 e l2,
    _resolve schema path = l1 ++ e :: l2 ->
    exists p s,
      segments e = p ++ [s] /\
      (p = path \/ exists e', e' ∈ l1 /\ segments e' = p).
Proof.
  induction schema as [nm p f c|nm p f c ch IH] using node_ind'; intros path.
  { intros l1 e l2 H. simpl in H. destruct l1; discriminate. }
  cbn [_resolve]. induction IH as [|x ch Hx _ IHch]; intros l1 e l2 H.
  { destruct l1; discriminate. }
  cbn [flat_map] in H.
  set (nmx := str_replace reference_indicator "" (name x)) in *.
  destruct l1 as [|e1 l1].
  - injection H as <- _. exists path, nmx. split; [reflexivity | left; reflexivity].
  - injection H as <- H.
    apply app_eq_inv in H as [(k & Hk1 & Hk2)|(k & Hk1 & Hk2)].
    + (* e is below x, or later: decide on k *)
      destruct k as [|e0 k].
      * rewrite app_nil_r in Hk1. simpl in Hk2.
        destruct (IHch [] e l2 (eq_sym Hk2)) as (q & s & Hq & [->|(e' & He' & _)]).
        -- exists path, s. split; [exact Hq | left; reflexivity].
        -- apply elem_of_nil in He'. contradiction.
      * injection Hk2 as -> ->.
        destruct (Hx (path ++ [nmx]) l1 e0 k Hk1)
          as (q & s & Hq & [->|(e' & He' & Hq')]).
        -- exists (path ++ [nmx]), s. split; [exact Hq|]. right.
           eexists. split; [constructor | reflexivity].
        -- exists q, s. split; [exact Hq|]. right.
           exists e'. split; [constructor; exact He' | exact Hq'].
    + destruct (IHch k e l2 Hk2) as (q & s & Hq & [->|(e' & He' & Hq')]).
      * exists path, s. split; [exact Hq | left; reflexivity].
      * exists q, s. split; [exact Hq|]. right.
        exists e'. split; [|exact Hq'].
        constructor. rewrite Hk1. apply elem_of_app. right. exact He'.
Qed.

(** X6: Every flattened entry but the first has the path of an earlier entry,
    its parent, followed by one segment: folders come before what they
    hold. *)
Theorem resolve_parent_before_child (schema : node) (l1 l2 : list entry)
    (e : entry) :
  resolve schema = l1 ++ e :: l2 ->
  l1 <> [] ->
  exists e' s, e' ∈ l1 /\ segments e = segments e' ++ [s].
Proof.
  unfold resolve. intros H Hl1. destruct l1 as [|root l1]; [contradiction|].
  injection H as <- H.
  destruct (_resolve_parent_before _ _ _ _ _ H)
    as (q & s & Hq & [->|(e' & He' & Hq')]).
  - eexists. exists s. split; [constructor|]. exact Hq.
  - exists e', s. split; [constructor; exact He'|]. rewrite Hq'. exact Hq.
Qed.

(** ** The canonical sort, further *)

Lemma sort_children_fields (depth : nat) (x y : node) :
  sort_children depth x = Ok y ->
  name y = name x /\ permission y = permission x /\
  folder y = folder x /\ content y = content x.
Proof.
  destruct depth as [|depth]; [discriminate|]. simpl.
  destruct (0 <? length (get_children x))%nat.
  - intros H. inv_bind H as sc Hsc. inv_bind H as dc Hdc.
    injection H as <-. repeat split.
  - intros [= <-]. repeat split.
Qed.

Lemma new_entry_fields (path : list string) (x y : node) :
  permission y = permission x -> folder y = folder x -> content y = content x ->
  new_entry path y = new_entry path x.
Proof. unfold new_entry. intros -> -> ->. reflexivity. Qed.

Lemma sort_children_resolve (depth : nat) :
  forall x y,
    sort_children depth x = Ok y ->
    forall path, Permutation (_resolve y path) (_resolve x path).
Proof.
  induction depth as [|depth IH]; intros x y; [discriminate|].
  simpl. destruct (0 <? length (get_children x))%nat; [|intros [= <-]; reflexivity].
  intros H path. inv_bind H as sc Hsc. inv_bind H as dc Hdc. injection H as <-.
  rewrite !_resolve_children. unfold get_children at 1. simpl.
  apply (sorted_Ok _ key_le_total key_le_trans) in Hsc as [Hperm _].
  rewrite (Permutation_flat_map _ Hperm). clear Hperm.
  apply mapM_Ok in Hdc. induction Hdc as [|a b l l' Hab _ IH']; [reflexivity|].
  cbn [flat_map]. destruct (sort_children_fields _ _ _ Hab) as (Hn & Hp & Hf & Hc).
  rewrite Hn, (new_entry_fields _ a b Hp Hf Hc).
  apply Permutation_cons; [reflexivity|].
  apply Permutation_app; [apply (IH _ _ Hab) | exact IH'].
Qed.

(** X7: The sort moves entries, it neither drops nor changes any: the flattened
    entries of the sorted tree are those of the tree before the sort, in
    another order. *)
Theorem sort_children_same_entries (depth : nat) (x y : node) :
  sort_children depth x = Ok y -> Permutation (resolve y) (resolve x).
Proof.
  intros H. unfold resolve.
  destruct (sort_children_fields _ _ _ H) as (Hn & Hp & Hf & Hc).
  rewrite Hn, (new_entry_fields _ x y Hp Hf Hc).
  apply Permutation_cons; [reflexivity|]. apply (sort_children_resolve _ _ _ H).
Qed.

Lemma sort_decorated_sorted_id {K A} (le : K -> K -> bool) (l : list (K * A)) :
  StronglySorted (le_fst le) l -> sort_decorated le l = l.
Proof.
  induction 1 as [|x l Hl IH Hx]; [reflexivity|].
  change (sort_decorated le (x :: l))
    with (insert_by le x (sort_decorated le l)).
  rewrite IH. destruct l as [|y l]; [reflexivity|]. simpl.
  apply Forall_cons in Hx as [Hxy _]. unfold le_fst in Hxy. rewrite Hxy.
  reflexivity.
Qed.

Lemma sorted_sorted_id {K A} (le : K -> K -> bool) (key : A -> result K)
    (kf : A -> K) (l : list A) :
  Forall (fun x => key x = Ok (kf x)) l ->
  StronglySorted (fun a b => le (kf a) (kf b) = true) l ->
  sorted le key l = Ok l.
Proof.
  intros Hkey Hsorted. unfold sorted.
  assert (Hm : mapM (fun x => k ← key x; mret (k, x)) l
               = Ok (map (fun x => (kf x, x)) l)).
  { apply mapM_Ok. clear Hsorted.
    induction Hkey as [|x l Hx _ IH]; constructor.
    - rewrite Hx. reflexivity.
    - exact IH. }
  rewrite Hm. cbn. rewrite sort_decorated_sorted_id.
  - rewrite map_map. simpl. rewrite map_id. reflexivity.
  - clear Hm Hkey. induction Hsorted as [|x l Hl IH Hx]; [constructor|].
    simpl. constructor; [exact IH|]. rewrite Forall_map.
    eapply Forall_impl; [exact Hx|]. intros y Hy. exact Hy.
Qed.

Lemma sort_key_Ok (x : node) :
  name x <> "" -> sort_key x = Ok (sibling_key x).
Proof.
  intros Hn. unfold sort_key. rewrite sanitize_Some by exact Hn.
  unfold sibling_key, py_not, is_folder. destruct (folder x) as [[]|]; reflexivity.
Qed.

Lemma sort_key_name (x : node) (k : bool * string) :
  sort_key x = Ok k -> name x <> "".
Proof.
  unfold sort_key. destruct (name x); [discriminate|]. intros _. discriminate.
Qed.

(** X8: Sorting a sorted tree changes nothing: [sort_children] is idempotent. *)
Theorem sort_children_idempotent (depth : nat) (x y : node) :
  sort_children depth x = Ok y -> sort_children depth y = Ok y.
Proof.
  revert x y. induction depth as [|depth IH]; intros x y; [discriminate|].
  intros H. pose proof (sort_children_sorted _ _ _ H) as Hsorted.
  cbn [sort_children] in *.
  destruct (0 <? length (get_children x))%nat eqn:Hlen.
  2: { injection H as <-. rewrite Hlen. reflexivity. }
  inv_bind H as sc Hsc. inv_bind H as dc Hdc. injection H as <-.
  pose proof (sorted_Ok_keys _ _ _ _ Hsc) as Hkeys.
  apply (sorted_Ok _ key_le_total key_le_trans) in Hsc as [Hperm _].
  rewrite Hperm in Hkeys.
  pose proof (mapM_Ok_length _ _ _ Hdc) as Hlen'.
  apply mapM_Ok in Hdc.
  assert (Hg : get_children (set_children x dc) = dc) by reflexivity.
  rewrite !Hg. clear Hg.
  assert (Hpos : (0 <? length dc)%nat = true).
  { rewrite Hlen', <- Hperm. exact Hlen. }
  rewrite Hpos.
  inversion Hsorted as [? Hch]. destruct (Hch dc eq_refl) as [Hs _].
  rewrite (sorted_sorted_id key_le sort_key sibling_key dc); [|clear Hs|exact Hs].
  - assert (Hid : mapM (sort_children depth) dc = Ok dc).
    { apply mapM_Ok. clear -Hdc IH.
      induction Hdc as [|a b l l' Hab _ IH']; constructor.
      - eapply IH, Hab.
      - exact IH'. }
    rewrite (bind_Ok_l _ _ _ eq_refl), (bind_Ok_l _ _ _ Hid). reflexivity.
  - clear -Hdc Hkeys. induction Hdc as [|a b l l' Hab _ IH']; constructor.
    + apply Forall_cons in Hkeys as [[k Hk] _]. apply sort_key_Ok.
      destruct (sort_children_fields _ _ _ Hab) as [-> _].
      eapply sort_key_name, Hk.
    + apply IH'. apply Forall_cons in Hkeys as [_ Hl]. exact Hl.
Qed.

(** ** The register of a new manager *)

Lemma register_key_name (x : node) (k : string) :
  register_key x = Ok k -> k = lower (strip_markers (name x)).
Proof.
  unfold register_key. destruct (name x) as [|a s] eqn:Hn; [discriminate|].
  rewrite sanitize_Some by discriminate. intros [= <-]. reflexivity.
Qed.

Lemma StronglySorted_Forall_impl {A} (R S : A -> A -> Prop) (P : A -> Prop)
    (l : list A) :
  (forall a b, P a -> P b -> R a b -> S a b) ->
  Forall P l -> StronglySorted R l -> StronglySorted S l.
Proof.
  intros HRS HP. apply (StronglySorted_Forall2 R S (fun a b => a = b /\ P a)).
  - intros a a' b b' [<- Ha] [<- Ha']. apply HRS; assumption.
  - induction HP as [|x l Hx _ IH]; constructor; [split; [reflexivity|exact Hx]|exact IH].
Qed.

(** X9: The register of a new manager is in the order of the names without
    markers, compared without case, and every tree in it is in canonical
    order at every level. *)
Theorem init_register_sorted (depth : nat) (templates : list fs_entry)
    (register : list node) :
  __init__ depth templates = Ok register ->
  StronglySorted register_name_le register /\ Forall tree_sorted register.
Proof.
  unfold __init__. intros H. inv_bind H as raw Hraw. inv_bind H as done Hdone.
  pose proof (sorted_Ok_keys _ _ _ _ H) as Hkeys.
  apply (sorted_Ok _ str_le_total str_le_trans) in H as [Hperm Hsorted].
  rewrite Hperm in Hkeys. split.
  - eapply StronglySorted_Forall_impl; [|exact Hkeys|exact Hsorted].
    intros a b [ka Ha] [kb Hb] HR. unfold register_name_le.
    rewrite <- (register_key_name _ _ Ha), <- (register_key_name _ _ Hb).
    apply HR; assumption.
  - rewrite <- Hperm. apply mapM_Ok in Hdone. clear -Hdone.
    induction Hdone as [|a b l l' Hab _ IH]; constructor.
    + eapply sort_children_sorted, Hab.
    + exact IH.
Qed.

Lemma sort_children_has_children (depth : nat) (x y : node) :
  sort_children depth x = Ok y -> is_Some (children x) -> is_Some (children y).
Proof.
  destruct depth as [|depth]; [discriminate|]. simpl.
  destruct (0 <? length (get_children x))%nat.
  - intros H _. inv_bind H as sc Hsc. inv_bind H as dc Hdc. injection H as <-.
    eexists. reflexivity.
  - intros [= <-]. tauto.
Qed.

(** X10: Every entry of the template folder, file or directory and whatever its
    name, becomes one registered template: named after the entry, marked as
    a folder, with a list of children, without content, its permission the
    string [oct] gives for the mode bits. *)
Theorem init_registers_every_entry (depth : nat) (templates : list fs_entry)
    (register : list node) :
  __init__ depth templates = Ok register ->
  Permutation (map template_fields register) (map entry_fields templates) /\
  Forall (fun item => is_Some (children item)) register.
Proof.
  unfold __init__. intros H. inv_bind H as raw Hraw. inv_bind H as done Hdone.
  apply (sorted_Ok _ str_le_total str_le_trans) in H as [Hperm _].
  rewrite <- Hperm. clear Hperm register.
  unfold register_templates in Hraw. apply mapM_Ok in Hraw, Hdone.
  revert done Hdone. induction Hraw as [|e item l raw He _ IH];
    intros done Hdone.
  - inversion Hdone. split; constructor.
  - inversion Hdone as [|? item' ? done' Hitem Hdone']; subst.
    destruct (IH _ Hdone') as [IH1 IH2].
    inv_bind He as ch Hch. injection He as <-.
    destruct (sort_children_fields _ _ _ Hitem) as (Hn & Hp & Hf & Hc).
    split.
    + simpl. unfold template_fields at 1. rewrite Hn, Hp, Hf, Hc. simpl.
      apply Permutation_cons; [reflexivity | exact IH1].
    + constructor; [|exact IH2].
      eapply sort_children_has_children; [exact Hitem|].
      eexists. reflexivity.
Qed.

Lemma _register_templates_not_git (depth : nat) :
  forall root items,
    _register_templates depth root = Ok items ->
    Forall (fun item => all_names not_git item = true) items.
Proof.
  induction depth as [|depth IH]; intros root items; [discriminate|]. simpl.
  destruct root as [nm m data|nm m entries]; [intros [= <-]; constructor|].
  intros H. inv_bind H as sorted_entries Hs. inv_bind H as found Hf.
  injection H as <-. apply mapM_Ok in Hf. clear Hs.
  induction Hf as [|e o l l' He _ IH']; [constructor|].
  simpl. destruct (startswith (fs_name e) ".git") eqn:Hgit.
  - injection He as <-. exact IH'.
  - destruct e as [nm' m' data'|nm' m' entries'].
    + injection He as <-. constructor; [|exact IH'].
      simpl. unfold not_git. simpl in Hgit. rewrite Hgit. reflexivity.
    + inv_bind He as ch Hch. injection He as <-.
      constructor; [|exact IH'].
      simpl. unfold not_git at 1. simpl in Hgit. rewrite Hgit. simpl.
      apply forallb_Forall. eapply IH, Hch.
Qed.

Lemma sort_children_children_names (P : string -> bool) (depth : nat)
    (x y : node) :
  sort_children depth x = Ok y ->
  forallb (all_names P) (get_children x) = true ->
  forallb (all_names P) (get_children y) = true.
Proof.
  destruct depth as [|depth]; [discriminate|]. simpl.
  destruct (0 <? length (get_children x))%nat; [|intros [= <-]; tauto].
  intros H Hch. inv_bind H as sc Hsc. inv_bind H as dc Hdc. injection H as <-.
  unfold get_children at 1. simpl.
  apply forallb_Forall. apply forallb_Forall in Hch.
  apply (sorted_Ok _ key_le_total key_le_trans) in Hsc as [Hperm _].
  rewrite Hperm in Hch. clear Hperm. apply mapM_Ok in Hdc.
  induction Hdc as [|a b l l' Hab _ IH']; constructor.
  - apply Forall_cons in Hch as [Ha _]. eapply sort_children_all_names; eassumption.
  - apply IH'. apply Forall_cons in Hch as [_ Hl]. exact Hl.
Qed.

(** X11: Below the top level, the register holds no name that starts with
    '.git', at any depth. *)
Theorem init_skips_nested_git (depth : nat) (templates : list fs_entry)
    (register : list node) :
  __init__ depth templates = Ok register ->
  Forall (fun item => forallb (all_names not_git) (get_children item) = true)
         register.
Proof.
  unfold __init__. intros H. inv_bind H as raw Hraw. inv_bind H as done Hdone.
  apply (sorted_Ok _ str_le_total str_le_trans) in H as [Hperm _].
  rewrite <- Hperm. clear Hperm register.
  unfold register_templates in Hraw. apply mapM_Ok in Hraw, Hdone.
  revert done Hdone. induction Hraw as [|e item l raw He _ IH];
    intros done Hdone.
  - inversion Hdone. constructor.
  - inversion Hdone as [|? item' ? done' Hitem Hdone']; subst.
    constructor; [|apply IH, Hdone'].
    inv_bind He as ch Hch. injection He as <-.
    eapply sort_children_children_names; [exact Hitem|].
    unfold get_children. simpl. apply forallb_Forall.
    eapply _register_templates_not_git, Hch.
Qed.

(** ** The path filter, further *)

Lemma contains_outs_None (cs : list (option string)) (path : list string) :
  None ∈ cs -> path <> [] ->
  forall outs, contains_outs cs path outs = Raise TypeError.
Proof.
  intros Hin Hpath. induction cs as [|c cs IH]; intros outs.
  - apply elem_of_nil in Hin. contradiction.
  - cbn [contains_outs]. destruct c as [tok|].
    + destruct (contains_elements_Some tok path false outs) as (outs' & -> & _).
      cbn. apply IH. apply elem_of_cons in Hin as [Hin|Hin]; [discriminate|exact Hin].
    + destruct path as [|seg path]; [contradiction|]. reflexivity.
Qed.

(** X12: An empty string among the [contains] tokens makes [find_path] raise
    [TypeError]: [sanitize] turns it into [None], and [None in str] raises
    on the first path. *)
Theorem find_path_empty_token (depth : nat) (register : list node)
    (startwith endswith : option string) (tokens : list string)
    (template_name : string) (built : node) :
  resolve_template depth register template_name = Ok built ->
  "" ∈ tokens ->
  find_path depth register startwith (Some tokens) endswith template_name
  = Raise TypeError.
Proof.
  intros Hbuilt Hin. unfold find_path. rewrite (bind_Ok_l _ _ _ Hbuilt).
  cbv zeta. unfold resolve. cbn [map find_path_loop].
  unfold path_passes. cbn [py_iter e_path new_entry last head].
  rewrite contains_outs_None; [reflexivity | | discriminate].
  apply (list_elem_of_fmap_2 (fun c => find_path_sanitize (Some c))) in Hin.
  exact Hin.
Qed.

(** X13: Without any filter, [find_path] returns the path of the root: its name
    without the reference marker. *)
Theorem find_path_no_filter (depth : nat) (register : list node)
    (template_name : string) (built : node) :
  resolve_template depth register template_name = Ok built ->
  find_path depth register None None None template_name
  = Ok (Some [str_replace reference_indicator "" (name built)]).
Proof.
  intros Hbuilt. unfold find_path. rewrite (bind_Ok_l _ _ _ Hbuilt). reflexivity.
Qed.

(** * Further properties of filesystem.py *)

(** ** The patterns *)

Section ParserFacts.

Variable str_format_other : string -> list string -> dict -> result string.
Variable re_match_other : string -> string -> result (option dict).

Lemma regexp_config_lookup (k p : string) :
  regexp_config !! k = Some p ->
  (k = "show" /\ p = "(?P<show>[a-zA-Z0-9_]+)") \/
  (k = "sequence" /\ p = "(?P<sequence>[a-zA-Z0-9_]+)") \/
  (k = "shot" /\ p = "(?P<shot>[a-zA-Z0-9_]+)") \/
  (k = "department" /\ p = "(?P<department>[a-z_]+)").
Proof.
  unfold regexp_config. intros H.
  apply lookup_insert_Some in H as [[<- <-]|[_ H]]; [tauto|].
  apply lookup_insert_Some in H as [[<- <-]|[_ H]]; [tauto|].
  apply lookup_insert_Some in H as [[<- <-]|[_ H]]; [tauto|].
  apply lookup_insert_Some in H as [[<- <-]|[_ H]]; [tauto|].
  rewrite lookup_empty in H. discriminate.
Qed.

Lemma parser_entry_segment (seg : string) :
  parser_entry str_format_other seg = Ok (parser_segment seg).
Proof.
  unfold parser_entry, parser_segment, variable_pattern.
  destruct (char_in "+" seg); [|reflexivity].
  destruct (regexp_config !! split_1 seg) as [p|] eqn:Hp; cbn [default].
  - apply regexp_config_lookup in Hp
      as [[-> ->]|[[-> ->]|[[-> ->]|[-> ->]]]]; reflexivity.
  - reflexivity.
Qed.

Lemma parser_entries_segments (segs : list string) :
  mapM (parser_entry str_format_other) segs = Ok (map parser_segment segs).
Proof.
  apply mapM_Ok. induction segs as [|x l IHl]; constructor;
    [apply parser_entry_segment | exact IHl].
Qed.

(** X14: [_to_parser] never raises.  It gives one pattern per entry: the
    segments joined by the separator, a literal segment as it is, not
    escaped, a variable segment replaced by the group of [regexp_config] for
    its name or by the default group named after it. *)
Theorem _to_parser_patterns (paths : list entry) :
  _to_parser str_format_other paths = Ok (map parser_path paths).
Proof.
  unfold _to_parser. apply mapM_Ok.
  induction paths as [|e paths IH]; constructor; [|exact IH].
  rewrite parser_entries_segments. reflexivity.
Qed.

(** ** The results of [parse] *)

Lemma parse_loop_results (path : string) (parsers : list string) :
  forall matched_results matched,
    parse_loop re_match_other parsers path matched_results = Ok matched ->
    (forall d, d ∈ matched <->
       d ∈ matched_results \/
       (d <> ∅ /\ exists p, p ∈ parsers /\
                            re_match re_match_other p path = Ok (Some d))) /\
    (NoDup matched_results -> NoDup matched).
Proof.
  induction parsers as [|p parsers IH]; intros acc matched H.
  - injection H as <-. split; [|tauto]. intros d. split; [tauto|].
    intros [Hd|(_ & q & Hq & _)]; [exact Hd|].
    apply elem_of_nil in Hq. contradiction.
  - cbn [parse_loop] in H. inv_bind H as m Hm.
    assert (Hstep : forall acc',
      parse_loop re_match_other parsers path acc' = Ok matched ->
      (forall d, d ∈ acc' <->
         d ∈ acc \/ (d <> ∅ /\ re_match re_match_other p path = Ok (Some d))) ->
      (NoDup acc -> NoDup acc') ->
      (forall d, d ∈ matched <->
         d ∈ acc \/
         (d <> ∅ /\ exists q, q ∈ p :: parsers /\
                              re_match re_match_other q path = Ok (Some d))) /\
      (NoDup acc -> NoDup matched)).
    { intros acc' Hloop Hacc Hnd. destruct (IH _ _ Hloop) as [IH1 IH2].
      split; [|tauto]. intros d. rewrite IH1, Hacc. split.
      - intros [[Hd|[Hne Hd]]|(Hne & q & Hq & Hd)]; [tauto| |].
        + right. split; [exact Hne|]. exists p. split; [constructor | exact Hd].
        + right. split; [exact Hne|]. exists q. split; [constructor; exact Hq | exact Hd].
      - intros [Hd|(Hne & q & [->|Hq]%elem_of_cons & Hd)]; [tauto| |].
        + left. right. tauto.
        + right. split; [exact Hne|]. exists q. tauto. }
    destruct m as [result|].
    + destruct (negb (bool_decide (result = ∅))
                && negb (bool_decide (result ∈ acc))) eqn:Hadd.
      * apply andb_true_iff in Hadd as [Hne Hnin].
        apply negb_true_iff in Hne, Hnin.
        apply bool_decide_eq_false_1 in Hne, Hnin.
        apply (Hstep _ H).
        -- intros d. rewrite elem_of_app, list_elem_of_singleton. split.
           ++ intros [Hd| ->]; [tauto|]. right. split; [exact Hne | exact Hm].
           ++ intros [Hd|[_ Hd]]; [tauto|]. rewrite Hm in Hd.
              injection Hd as ->. tauto.
        -- intros Hnd. apply NoDup_app. split; [exact Hnd|]. split.
           ++ intros d Hd ->%list_elem_of_singleton. contradiction.
           ++ apply NoDup_singleton.
      * apply (Hstep _ H); [|tauto]. intros d. split; [tauto|].
        intros [Hd|[Hne Hd]]; [exact Hd|]. rewrite Hm in Hd. injection Hd as ->.
        apply andb_false_iff in Hadd as [Hadd|Hadd];
          apply negb_false_iff, bool_decide_eq_true_1 in Hadd;
          [contradiction | exact Hadd].
    + apply (Hstep _ H); [|tauto]. intros d. split; [tauto|].
      intros [Hd|[_ Hd]]; [exact Hd|]. rewrite Hm in Hd. discriminate.
Qed.

(** [parse] on a registered template: the loop over the patterns of its
    flattened entries, then the sort. *)
Lemma parse_unfold (depth : nat) (register : list node) (path nm : string)
    (built : node) :
  resolve_template depth register nm = Ok built ->
  parse str_format_other re_match_other depth register path nm
  = (parse_loop re_match_other (map parser_path (resolve built)) path []
       ≫= fun matched => Ok (reverse (list_sort dict_le matched))).
Proof.
  intros Hbuilt. unfold parse. rewrite (bind_Ok_l _ _ _ Hbuilt). cbv zeta.
  assert (H : _to_parser str_format_other (resolve built)
              = Ok (map parser_path (resolve built))).
  { unfold _to_parser. apply mapM_Ok.
    induction (resolve built) as [|e paths IH]; constructor; [|exact IH].
    rewrite parser_entries_segments. reflexivity. }
  rewrite (bind_Ok_l _ _ _ H). reflexivity.
Qed.

(** X15: What [parse] returns holds no dict twice and no empty dict: it holds
    exactly the non-empty [groupdict]s of the patterns of the template that
    match the path. *)
Theorem parse_results (depth : nat) (register : list node) (path nm : string)
    (built : node) (results : list dict) :
  resolve_template depth register nm = Ok built ->
  parse str_format_other re_match_other depth register path nm = Ok results ->
  NoDup results /\
  forall d, d ∈ results <->
    d <> ∅ /\
    exists e, e ∈ resolve built /\
              re_match re_match_other (parser_path e) path = Ok (Some d).
Proof.
  intros Hbuilt H. rewrite (parse_unfold _ _ _ _ _ Hbuilt) in H.
  inv_bind H as matched Hloop. injection H as <-.
  destruct (parse_loop_results _ _ _ _ Hloop) as [Hin Hnd]. split.
  - rewrite reverse_Permutation, <- list_sort_perm. apply Hnd, NoDup_nil_2.
  - intros d. rewrite elem_of_reverse, <- list_sort_perm, Hin. split.
    + intros [Hd|(Hne & p & Hp & Hd)]; [apply elem_of_nil in Hd; contradiction|].
      split; [exact Hne|].
      apply list_elem_of_fmap in Hp as (e & -> & He). exists e. tauto.
    + intros (Hne & e & He & Hd). right. split; [exact Hne|].
      exists (parser_path e). split; [|exact Hd].
      apply list_elem_of_fmap_2. exact He.
Qed.

End ParserFacts.

(** ** Materializing what is already materialized *)

Section ToPathAgain.

Variable str_format_other : string -> list string -> dict -> result string.
Variable data : dict.

Lemma chars_format_plain (s : string) :
  str_forallb inert_char s = true ->
  Forall (fun seg => format_plain seg = true) (chars s) /\
  keys_present data (chars s) = true /\
  map (substitute data) (chars s) = chars s.
Proof.
  induction s as [|c s IH]; [repeat split; constructor|].
  simpl. intros [Hc Hs]%andb_true_iff. destruct (IH Hs) as (IH1 & IH2 & IH3).
  unfold inert_char in Hc.
  apply andb_true_iff in Hc as [[Hp Ho]%andb_true_iff Hcl].
  apply negb_true_iff in Hp, Ho, Hcl.
  assert (Hplus : char_in "+" (String c "") = false)
    by (simpl; rewrite Hp; reflexivity).
  repeat split.
  - constructor; [|exact IH1]. unfold format_plain. rewrite Hplus.
    unfold brace_free. simpl. rewrite Ho, Hcl. reflexivity.
  - rewrite keys_present_cons, Hplus. exact IH2.
  - rewrite IH3. unfold substitute. rewrite Hplus. reflexivity.
Qed.

(** X16: After [_to_path] an entry holds a string where its segments were.  Given
    that entry again, [_to_path] takes the characters of the string for
    segments: it keeps the entry and writes the characters joined by the
    separator. *)
Theorem to_path_again (heap : list entry) (r : nat) (e : entry) (s : string) :
  heap !! r = Some e ->
  e_path e = Joined s ->
  str_forallb inert_char s = true ->
  _to_path str_format_other heap [r] data
  = (<[r := set_path e (Joined (join os_sep (chars s)))]> heap, [r]).
Proof.
  intros Hr Hpath Hs. unfold _to_path. cbn [to_path_loop]. rewrite Hr.
  rewrite list_in_false. cbn [negb].
  destruct (chars_format_plain s Hs) as (Hplain & Hkeys & Hsub).
  pose proof (path_string_plain str_format_other data e) as Hstr.
  unfold plain_entry, segments in Hstr. rewrite Hpath in Hstr.
  cbn [py_iter] in Hstr. rewrite Hkeys, Hsub in Hstr.
  specialize (Hstr Hplain). unfold path_string in Hstr. rewrite Hpath in Hstr.
  cbn [py_iter] in Hstr. rewrite Hpath. cbn [py_iter]. rewrite Hstr. reflexivity.
Qed.

End ToPathAgain.

(** ** Building, then parsing, with any number of variables *)

Lemma is_word_not_gt (c : ascii) : is_word c = true -> ascii_eqb c ">" = false.
Proof. destruct c as [[] [] [] [] [] [] [] []]; (discriminate || reflexivity). Qed.

Lemma re_scan_name (k : string) :
  str_forallb is_word k = true ->
  forall acc rest,
    re_scan (RName acc) (k ++ ">[a-zA-Z0-9_]+)" ++ rest)
    = re_cons (RGroup (acc ++ k) word_class) (re_scan RTop rest).
Proof.
  induction k as [|c k IH]; intros Hk acc rest.
  - rewrite str_app_nil_r. reflexivity.
  - simpl in Hk. apply andb_true_iff in Hk as [Hc Hk].
    rewrite str_app_cons. cbn [re_scan].
    rewrite (is_word_not_gt _ Hc), Hc, (IH Hk).
    rewrite str_app_assoc. reflexivity.
Qed.

Lemma is_identifier_word (k : string) :
  is_identifier k = true -> str_forallb is_word k = true.
Proof.
  unfold is_identifier. destruct k as [|c k]; [discriminate|].
  intros [_ H]%andb_true_iff. exact H.
Qed.

Lemma re_scan_variable (k rest : string) :
  is_identifier k = true ->
  re_scan RTop (variable_pattern k ++ rest)
  = re_cons (RGroup k (variable_class k)) (re_scan RTop rest).
Proof.
  intros Hk. unfold variable_pattern.
  destruct (regexp_config !! k) as [p|] eqn:Hp.
  - apply regexp_config_lookup in Hp
      as [[-> ->]|[[-> ->]|[[-> ->]|[-> ->]]]]; reflexivity.
  - assert (Hclass : variable_class k = word_class).
    { unfold variable_class. destruct (String.eqb_spec k "department") as [->|_];
        [discriminate | reflexivity]. }
    rewrite Hclass.
    change (re_scan RTop (("(?P<" ++ k ++ ">[a-zA-Z0-9_]+)") ++ rest))
      with (re_scan (RName "") ((k ++ ">[a-zA-Z0-9_]+)") ++ rest)).
    rewrite str_app_assoc.
    apply (re_scan_name k (is_identifier_word k Hk) "" rest).
Qed.

Lemma re_scan_general_segment (seg : string) :
  general_segment seg = true ->
  forall rest,
    re_scan RTop (parser_segment seg ++ rest)
    = option_map (app (general_segment_items seg)) (re_scan RTop rest).
Proof.
  unfold general_segment, parser_segment, general_segment_items.
  intros Hseg rest. destruct (char_in "+" seg).
  - rewrite re_scan_variable by exact Hseg.
    destruct (re_scan RTop rest); reflexivity.
  - apply re_scan_literal, Hseg.
Qed.

Lemma re_scan_general_path (segs : list string) :
  forallb general_segment segs = true ->
  re_scan RTop (join os_sep (map parser_segment segs))
  = Some (general_path_items segs).
Proof.
  induction segs as [|x l IH]; [reflexivity|].
  cbn [forallb]. intros [Hx Hl]%andb_true_iff. destruct l as [|y l].
  - change (join os_sep (map parser_segment [x])) with (parser_segment x).
    rewrite <- (str_app_nil_r (parser_segment x)),
      re_scan_general_segment by exact Hx.
    simpl. rewrite app_nil_r. reflexivity.
  - change (map parser_segment (x :: y :: l))
      with (parser_segment x :: map parser_segment (y :: l)).
    change (join os_sep (parser_segment x :: map parser_segment (y :: l)))
      with (parser_segment x
            ++ String "/" (join os_sep (map parser_segment (y :: l))))%string.
    rewrite re_scan_general_segment by exact Hx.
    cbn [re_scan]. change (ascii_eqb "/" "(") with false.
    change (ascii_eqb "/" ".") with false. change (re_special "/") with false.
    cbv iota. rewrite (IH Hl). reflexivity.
Qed.

Lemma group_names_general_path (segs : list string) :
  group_names (general_path_items segs) = required_keys segs.
Proof.
  unfold required_keys. induction segs as [|x l IH]; [reflexivity|].
  assert (H : group_names (general_path_items (x :: l))
              = group_names (general_segment_items x)
                ++ group_names (general_path_items l)).
  { destruct l as [|y l].
    - cbn [general_path_items]. rewrite app_nil_r. reflexivity.
    - cbn [general_path_items]. rewrite group_names_app. reflexivity. }
  rewrite H, IH. unfold general_segment_items. cbn [List.filter].
  destruct (char_in "+" x); [reflexivity|].
  rewrite group_names_literal. reflexivity.
Qed.

Lemma general_path_identifiers (segs : list string) :
  forallb general_segment segs = true ->
  forallb is_identifier (required_keys segs) = true.
Proof.
  unfold required_keys. induction segs as [|x l IH]; [reflexivity|].
  cbn [forallb List.filter]. intros [Hx Hl]%andb_true_iff.
  unfold general_segment in Hx. destruct (char_in "+" x); [|exact (IH Hl)].
  cbn [map forallb]. rewrite Hx, (IH Hl). reflexivity.
Qed.

Lemma re_parse_general_path (segs : list string) :
  general_path segs = true ->
  re_parse (join os_sep (map parser_segment segs))
  = Some (general_path_items segs).
Proof.
  unfold general_path.
  intros [[Hsegs Hnd]%andb_true_iff Hlen]%andb_true_iff.
  unfold re_parse. rewrite (re_scan_general_path _ Hsegs).
  rewrite group_names_general_path, (general_path_identifiers _ Hsegs), Hnd, Hlen.
  reflexivity.
Qed.

(** *** The match *)

Lemma run_length_class (ranges : list (ascii * ascii)) (v rest : string) :
  str_forallb (in_class ranges) v = true ->
  run_length ranges rest = O ->
  run_length ranges (v ++ rest) = String.length v.
Proof.
  intros Hv Hrest. induction v as [|c v IH]; [exact Hrest|].
  simpl in Hv. apply andb_true_iff in Hv as [Hc Hv].
  rewrite str_app_cons. cbn [run_length String.length].
  rewrite Hc, (IH Hv). reflexivity.
Qed.

Lemma in_lower_class_word (c : ascii) :
  in_class lower_class c = true -> is_word c = true.
Proof. destruct c as [[] [] [] [] [] [] [] []]; (discriminate || reflexivity). Qed.

Lemma stops_run_length (k rest : string) :
  stops rest = true -> run_length (variable_class k) rest = O.
Proof.
  destruct rest as [|c rest]; [reflexivity|]. cbn [stops run_length].
  intros Hc%negb_true_iff. unfold variable_class.
  destruct (String.eqb k "department").
  - destruct (in_class lower_class c) eqn:Hin; [|reflexivity].
    apply in_lower_class_word in Hin. congruence.
  - rewrite in_word_class, Hc. reflexivity.
Qed.

Lemma re_match_general_group (k v : string) (items : list re_item)
    (rest : string) (groups r : dict) :
  v <> "" ->
  str_forallb (in_class (variable_class k)) v = true ->
  stops rest = true ->
  re_items_match items rest (<[k := v]> groups) = Some r ->
  re_items_match (RGroup k (variable_class k) :: items) (v ++ rest) groups
  = Some r.
Proof.
  intros Hne Hv Hrest Hr. cbn [re_items_match].
  rewrite run_length_class by (try apply stops_run_length; assumption).
  destruct (String.length v) as [|n] eqn:Hn.
  { destruct v; [contradiction | discriminate]. }
  cbn [longest_first]. rewrite <- Hn, str_drop_app, str_take_app, Hr.
  reflexivity.
Qed.

Section GeneralMatch.

Variable data : dict.

Lemma re_match_general_segment (x : string) (items : list re_item)
    (rest : string) (groups r : dict) :
  data_fits data [x] = true ->
  stops rest = true ->
  re_items_match items rest (captured_data data [x] groups) = Some r ->
  re_items_match (general_segment_items x ++ items)
    (substitute data x ++ rest) groups = Some r.
Proof.
  unfold data_fits, required_keys, general_segment_items, substitute,
    captured_data. cbn [foldl List.filter].
  destruct (char_in "+" x); intros Hx Hrest Hr.
  - cbn [map forallb] in Hx. rewrite andb_true_r in Hx.
    unfold value_fits in Hx.
    destruct (data !! split_1 x) as [v|]; [|discriminate].
    apply andb_true_iff in Hx as [Hne Hv].
    change (default "" (Some v)) with v in *.
    apply re_match_general_group; try assumption.
    apply negb_true_iff in Hne. intros ->. discriminate.
  - rewrite re_match_literal. exact Hr.
Qed.

Lemma data_fits_cons (x : string) (l : list string) :
  data_fits data (x :: l) = data_fits data [x] && data_fits data l.
Proof.
  unfold data_fits, required_keys. cbn [List.filter].
  destruct (char_in "+" x); cbn [map forallb]; [|reflexivity].
  rewrite andb_true_r. reflexivity.
Qed.

Lemma re_match_general_path (segs : list string) :
  data_fits data segs = true ->
  forall items rest groups r,
    stops rest = true ->
    re_items_match items rest (captured_data data segs groups) = Some r ->
    re_items_match (general_path_items segs ++ items)
      (join os_sep (map (substitute data) segs) ++ rest) groups
    = Some r.
Proof.
  induction segs as [|x l IH]; intros Hfits items rest groups r Hrest Hr.
  - exact Hr.
  - rewrite data_fits_cons in Hfits. apply andb_true_iff in Hfits as [Hx Hl].
    destruct l as [|y l].
    + apply re_match_general_segment; assumption.
    + cbn [general_path_items]. rewrite <- app_assoc.
      change (map (substitute data) (x :: y :: l))
        with (substitute data x :: map (substitute data) (y :: l)).
      change (join os_sep (substitute data x
                           :: map (substitute data) (y :: l)))
        with (substitute data x
              ++ String "/" (join os_sep
                               (map (substitute data) (y :: l))))%string.
      rewrite str_app_assoc, str_app_cons.
      apply re_match_general_segment; [exact Hx | reflexivity |].
      cbn [app re_items_match]. rewrite ascii_eqb_refl.
      apply (IH Hl); [exact Hrest | exact Hr].
Qed.

Lemma captured_data_lookup (segs : list string) :
  forall groups k,
    captured_data data segs groups !! k
    = if bool_decide (k ∈ required_keys segs)
      then Some (default "" (data !! k))
      else groups !! k.
Proof.
  unfold captured_data, required_keys.
  induction segs as [|x l IH]; intros groups k.
  - cbn. rewrite bool_decide_eq_false_2 by apply not_elem_of_nil. reflexivity.
  - cbn [foldl List.filter]. rewrite IH. destruct (char_in "+" x);
      [|reflexivity].
    cbn [map].
    destruct (decide (k ∈ map split_1 (List.filter (char_in "+") l)))
      as [Hin|Hnin].
    + rewrite !bool_decide_eq_true_2;
        [reflexivity | apply elem_of_cons; tauto | exact Hin].
    + rewrite (bool_decide_eq_false_2 _ Hnin).
      destruct (decide (k = split_1 x)) as [->|Hne].
      * rewrite lookup_insert_eq.
        rewrite bool_decide_eq_true_2 by constructor. reflexivity.
      * rewrite lookup_insert_ne by congruence.
        rewrite bool_decide_eq_false_2; [reflexivity|].
        rewrite elem_of_cons. tauto.
Qed.

End GeneralMatch.

(** *** The path string *)

Lemma is_word_key_char (c : ascii) : is_word c = true -> key_char c = true.
Proof. destruct c as [[] [] [] [] [] [] [] []]; (discriminate || reflexivity). Qed.

Lemma word_key_chars (s : string) :
  str_forallb is_word s = true -> str_forallb key_char s = true.
Proof.
  induction s as [|c s IH]; [reflexivity|].
  cbn [str_forallb]. intros [Hc Hs]%andb_true_iff.
  rewrite (is_word_key_char _ Hc), (IH Hs). reflexivity.
Qed.

Lemma is_identifier_simple_key (k : string) :
  is_identifier k = true -> simple_key k = true.
Proof.
  unfold is_identifier, simple_key. destruct k as [|c k]; [discriminate|].
  intros [Hc Hk]%andb_true_iff. rewrite (word_key_chars _ Hk).
  cbn [String.eqb str_forallb]. apply negb_true_iff in Hc. rewrite Hc.
  reflexivity.
Qed.

Lemma general_segment_format_plain (seg : string) :
  general_segment seg = true -> format_plain seg = true.
Proof.
  unfold general_segment, format_plain. destruct (char_in "+" seg).
  - apply is_identifier_simple_key.
  - apply plain_literal_brace_free.
Qed.

Lemma value_fits_Some (data : dict) (k : string) :
  value_fits data k = true -> data !! k = Some (default "" (data !! k)).
Proof.
  unfold value_fits. destruct (data !! k); [reflexivity | discriminate].
Qed.

Lemma data_fits_keys_present (data : dict) (segs : list string) :
  data_fits data segs = true -> keys_present data segs = true.
Proof.
  unfold data_fits, keys_present.
  induction (required_keys segs) as [|k l IH]; [reflexivity|].
  cbn [forallb]. intros [Hk Hl]%andb_true_iff.
  rewrite (value_fits_Some _ _ Hk), (IH Hl). reflexivity.
Qed.

Section GeneralRoundTrip.

Variable str_format_other : string -> list string -> dict -> result string.
Variable re_match_other : string -> string -> result (option dict).
Variable data : dict.

Lemma re_match_general (segs : list string) (path : string) :
  general_path segs = true ->
  re_match re_match_other (join os_sep (map parser_segment segs)) path
  = Ok (re_items_match (general_path_items segs) path ∅).
Proof.
  intros H. unfold re_match. rewrite re_parse_general_path by exact H.
  reflexivity.
Qed.

(** X20: For a template whose paths hold identifiers as variables, no name twice
    in a path, and literal segments that stand for themselves in a pattern:
    when the data gives every variable of an entry a value its group
    matches, [_to_path] writes the path of the entry with the values in
    place of the variables, and [parse] of that string against the same
    template returns, among its results, exactly the variables of the entry
    with their values. *)
Theorem round_trip_general (depth : nat) (register : list node) (nm : string)
    (built : node) (i : nat) (e : entry) :
  resolve_template depth register nm = Ok built ->
  Forall (fun segs => general_path segs = true) (flattened_paths built) ->
  resolve built !! i = Some e ->
  data_fits data (segments e) = true ->
  required_keys (segments e) <> [] ->
  exists heap path_results final_path results d,
    build_path_results str_format_other depth register nm data
    = Ok (heap, path_results) /\
    i ∈ path_results /\
    final_path = join os_sep (map (substitute data) (segments e)) /\
    e_path <$> heap !! i = Some (Joined final_path) /\
    parse str_format_other re_match_other depth register final_path nm
    = Ok results /\
    d ∈ results /\
    forall k, d !! k = if bool_decide (k ∈ required_keys (segments e))
                       then data !! k else None.
Proof.
  intros Hbuilt Hpaths Hi Hfits Hvar.
  set (final_path := join os_sep (map (substitute data) (segments e))).
  assert (Hentries : Forall (fun x => general_path (segments x) = true)
                       (resolve built)).
  { unfold flattened_paths in Hpaths. rewrite Forall_map in Hpaths.
    exact Hpaths. }
  assert (Hel : e ∈ resolve built) by (eapply list_elem_of_lookup_2, Hi).
  assert (He : general_path (segments e) = true)
    by (exact (proj1 (Forall_forall _ _) Hentries _ Hel)).
  assert (Hplain : Forall plain_entry (resolve built)).
  { eapply Forall_impl; [exact Hentries|]. intros x Hx.
    unfold general_path in Hx.
    apply andb_true_iff in Hx as [[Hx _]%andb_true_iff _].
    unfold plain_entry. apply forallb_Forall in Hx.
    eapply Forall_impl; [exact Hx|]. apply general_segment_format_plain. }
  assert (Hkeys : keys_present data (segments e) = true)
    by (apply data_fits_keys_present, Hfits).
  destruct (to_path_loop_spec str_format_other data
              (seq 0 (length (resolve built))) (NoDup_seq _ _) (resolve built) [])
    as (heap & Hloop & _ & Hget).
  assert (Hin : i ∈ seq 0 (length (resolve built))).
  { apply elem_of_seq. apply lookup_lt_Some in Hi. lia. }
  destruct (parse_loop_collects str_format_other re_match_other final_path
              (map parser_path (resolve built))) with (matched_results := @nil dict)
    as (matched & Hloop' & _ & Hnew).
  { rewrite Forall_map. eapply Forall_impl; [exact Hentries|].
    intros x Hx. eexists. unfold parser_path. apply re_match_general, Hx. }
  set (d := captured_data data (segments e) ∅).
  assert (Hd : forall k, d !! k = if bool_decide (k ∈ required_keys (segments e))
                                  then data !! k else None).
  { intros k. unfold d. rewrite captured_data_lookup, lookup_empty.
    destruct (bool_decide (k ∈ required_keys (segments e))) eqn:Hk;
      [|reflexivity].
    apply bool_decide_eq_true_1 in Hk. symmetry. apply value_fits_Some.
    unfold data_fits in Hfits.
    exact (proj1 (Forall_forall _ _) (proj1 (forallb_Forall _ _) Hfits) _ Hk). }
  exists heap, (filter (fun r => kept str_format_other data (resolve built) r = true)
                  (seq 0 (length (resolve built)))), final_path,
    (reverse (list_sort dict_le matched)), d.
  repeat split.
  - unfold build_path_results. rewrite (bind_Ok_l _ _ _ Hbuilt).
    cbv zeta. unfold _to_path. rewrite Hloop. reflexivity.
  - apply list_elem_of_filter. split; [|exact Hin].
    rewrite kept_has_keys by exact Hplain. unfold has_keys. rewrite Hi.
    exact Hkeys.
  - rewrite Hget, (bool_decide_eq_true_2 _ Hin), Hi. simpl. unfold materialized.
    pose proof (path_string_plain str_format_other data e) as Hs.
    rewrite Hkeys in Hs. rewrite Hs; [reflexivity|].
    exact (proj1 (Forall_forall _ _) Hplain _ Hel).
  - rewrite (parse_unfold _ _ _ _ _ _ _ Hbuilt).
    rewrite (bind_Ok_l _ _ _ Hloop'). reflexivity.
  - apply elem_of_reverse. rewrite <- list_sort_perm.
    apply (Hnew (parser_path e)).
    + apply (list_elem_of_fmap_2 parser_path). exact Hel.
    + unfold parser_path. rewrite re_match_general by exact He.
      f_equal. unfold final_path, d.
      rewrite <- (app_nil_r (general_path_items (segments e))).
      rewrite <- (str_app_nil_r (join os_sep _)).
      apply re_match_general_path; [exact Hfits | reflexivity | reflexivity].
    + intros Hempty. destruct (required_keys (segments e)) as [|k l] eqn:Hreq;
        [contradiction|].
      pose proof (Hd k) as Hk. rewrite Hempty, lookup_empty in Hk.
      rewrite bool_decide_eq_true_2 in Hk by constructor.
      assert (Hfit : value_fits data k = true).
      { unfold data_fits in Hfits. rewrite Hreq in Hfits. cbn in Hfits.
        apply andb_true_iff in Hfits as [Hfit _]. exact Hfit. }
      rewrite (value_fits_Some _ _ Hfit) in Hk. discriminate.
  - exact Hd.
Qed.

End GeneralRoundTrip.

(** ** [build]: what reaches the operating system *)

Lemma all_permissions_unfold (P : option pyval -> bool) (t : node) :
  all_permissions P t
  = P (permission t) && forallb (all_permissions P) (get_children t).
Proof. destruct t as [nm p f c [ch|]]; reflexivity. Qed.

Lemma materialized_permission
    (str_format_other : string -> list string -> dict -> result string)
    (data : dict) (e : entry) :
  e_permission (materialized str_format_other data e) = e_permission e.
Proof.
  unfold materialized. destruct (path_string str_format_other data e); reflexivity.
Qed.

Section BuildFacts.

Variable str_format_other : string -> list string -> dict -> result string.
Variable os_raises : list os_call -> os_call -> option os_exn.
Variable data : dict.

Lemma kept_entries (l : list entry) :
  forall pre,
    omap (fun r => materialized str_format_other data <$> (pre ++ l) !! r)
      (filter (fun r => kept str_format_other data (pre ++ l) r = true)
         (seq (length pre) (length l)))
    = map (materialized str_format_other data)
        (filter (fun e => is_Ok (path_string str_format_other data e) = true) l).
Proof.
  induction l as [|e l IH]; intros pre; [reflexivity|].
  cbn [length seq].
  assert (Hpre : (pre ++ e :: l) !! length pre = Some e)
    by (rewrite lookup_app_r by lia; rewrite Nat.sub_diag; reflexivity).
  specialize (IH (pre ++ [e])). rewrite <- app_assoc in IH. cbn [app] in IH.
  rewrite length_app in IH. cbn [length] in IH. rewrite Nat.add_1_r in IH.
  destruct (is_Ok (path_string str_format_other data e)) eqn:Hok.
  - rewrite filter_cons_True by (unfold kept; rewrite Hpre; exact Hok).
    rewrite (filter_cons_True _ e) by exact Hok.
    cbn [omap list_omap]. rewrite Hpre. cbn. f_equal. exact IH.
  - rewrite filter_cons_False
      by (unfold kept; rewrite Hpre, Hok; discriminate).
    rewrite (filter_cons_False _ e) by (rewrite Hok; discriminate).
    exact IH.
Qed.

Lemma omap_ext_in {A B} (f g : A -> option B) (l : list A) :
  (forall x, x ∈ l -> f x = g x) -> omap f l = omap g l.
Proof.
  induction l as [|a l IH]; intros H; [reflexivity|]. cbn.
  rewrite (H a) by constructor. rewrite IH; [reflexivity|].
  intros x Hx. apply H. constructor. exact Hx.
Qed.

Lemma build_path_results_entries (depth : nat) (register : list node)
    (nm : string) (heap : list entry) (refs : list nat) :
  build_path_results str_format_other depth register nm data = Ok (heap, refs) ->
  exists built,
    resolve_template depth register nm = Ok built /\
    omap (fun r => heap !! r) refs = path_results_of str_format_other data built.
Proof.
  unfold build_path_results. intros H. inv_bind H as built Hb.
  exists built. split; [exact Hb|].
  change (Ok (to_path_loop str_format_other data
                (seq 0 (length (resolve built))) (resolve built) [])
          = Ok (heap, refs)) in H.
  destruct (to_path_loop_spec str_format_other data
              (seq 0 (length (resolve built))) (NoDup_seq _ _)
              (resolve built) []) as (heap' & Hloop & _ & Hget).
  rewrite Hloop in H. injection H as <- <-. cbn [app].
  rewrite (omap_ext_in _
             (fun r => materialized str_format_other data <$> resolve built !! r)).
  - exact (kept_entries (resolve built) []).
  - intros r Hr. apply list_elem_of_filter in Hr as [_ Hr].
    rewrite Hget. rewrite bool_decide_eq_true_2 by exact Hr. reflexivity.
Qed.

Lemma path_results_joined (built : node) :
  Forall (fun e => joined_path e = true) (path_results_of str_format_other data built).
Proof.
  unfold path_results_of. apply Forall_forall. intros e He.
  apply list_elem_of_fmap in He as (e0 & -> & He0).
  apply list_elem_of_filter in He0 as [Hok _].
  unfold materialized. destruct (path_string str_format_other data e0);
    [reflexivity|discriminate].
Qed.

Lemma path_join_joined (root : string) (e : entry) :
  joined_path e = true -> path_join (Some root) (e_path e) = Ok (full_path root e).
Proof.
  unfold joined_path, full_path. destruct (e_path e) as [l|s]; [discriminate|].
  intros _. unfold path_join. destruct (startswith s "/"); [reflexivity|].
  destruct (String.eqb root "" || endswith_char root "/"); reflexivity.
Qed.

Lemma build_create_benign (root : string) (path_results : list entry) :
  writes_benign os_raises ->
  Forall (fun e => joined_path e = true) path_results ->
  forall trace,
    build_create os_raises (Some root) path_results trace
    = (trace ++ map (create_call root) path_results, None).
Proof.
  intros Hos. induction 1 as [|e l He _ IH]; intros trace; cbn [build_create map].
  - rewrite app_nil_r. reflexivity.
  - rewrite (path_join_joined _ _ He). unfold create_call at 1.
    destruct (e_folder e).
    + rewrite IH, <- app_assoc. reflexivity.
    + cbv zeta.
      destruct (Hos trace (full_path root e) (e_content e)) as [-> | ->];
        rewrite IH, <- app_assoc; reflexivity.
Qed.

Lemma build_chmod_benign (root : string) (path_results : list entry) :
  chmods_benign os_raises ->
  Forall (fun e => joined_path e = true) path_results ->
  Forall (fun e => int_permission e = true) path_results ->
  forall trace,
    build_chmod os_raises (Some root) path_results trace
    = (trace ++ flat_map (chmod_calls root) path_results, None).
Proof.
  intros Hos Hj. induction Hj as [|e l He _ IH]; intros Hp trace;
    cbn [build_chmod flat_map].
  - rewrite app_nil_r. reflexivity.
  - apply Forall_cons in Hp as [Hint Hp].
    rewrite (path_join_joined _ _ He). cbv zeta.
    unfold chmod_calls at 1. unfold int_permission in Hint.
    destruct (e_permission e) as [z|s]; [|discriminate].
    cbn [py_oct].
    destruct (Hos trace (full_path root e) (PyInt z)) as [-> _].
    destruct (Hos (trace ++ [Realpath (full_path root e)]) (full_path root e)
                (PyInt z)) as [_ [-> | ->]];
      rewrite (IH Hp), <- !app_assoc; reflexivity.
Qed.

(** X17: With int permissions, on an operating system that raises only what the
    handlers of [build] catch, [build] returns: it has created every entry
    in the order of the flattened tree, then, going backwards, asked for the
    real path and set the mode of each one; no failure of a call stops
    it. *)
Theorem build_creates_then_chmods (depth : nat) (register : list node)
    (nm root : string) (built : node) :
  resolve_template depth register nm = Ok built ->
  Forall (fun e => int_permission e = true) (resolve built) ->
  writes_benign os_raises -> chmods_benign os_raises ->
  build str_format_other os_raises depth register nm data (Some root)
  = (map (create_call root) (path_results_of str_format_other data built)
       ++ flat_map (chmod_calls root) (reverse (path_results_of str_format_other data built)),
     None).
Proof.
  intros Hb Hint Hw Hc. unfold build.
  destruct (build_path_results str_format_other depth register nm data)
    as [[heap refs]|err] eqn:Hpr.
  - apply build_path_results_entries in Hpr as (built' & Hb' & ->).
    rewrite Hb in Hb'. injection Hb' as <-.
    pose proof (path_results_joined built) as Hj.
    rewrite (build_create_benign root _ Hw Hj []). cbn [app].
    apply build_chmod_benign; [exact Hc| |].
    + apply Forall_forall. intros e He. rewrite elem_of_reverse in He.
      revert e He. apply Forall_forall. exact Hj.
    + apply Forall_forall. intros e He. rewrite elem_of_reverse in He.
      unfold path_results_of in He.
      apply list_elem_of_fmap in He as (e0 & -> & He0).
      apply list_elem_of_filter in He0 as [_ He0].
      unfold int_permission. rewrite materialized_permission.
      revert e0 He0. apply Forall_forall. exact Hint.
  - unfold build_path_results in Hpr. rewrite Hb in Hpr. discriminate.
Qed.

End BuildFacts.

(** *** Permissions of a register read from the template folder *)

Lemma sort_children_all_permissions (P : option pyval -> bool) (depth : nat)
    (x y : node) :
  sort_children depth x = Ok y ->
  all_permissions P x = true -> all_permissions P y = true.
Proof.
  revert x y. induction depth as [|depth IH]; intros x y; [discriminate|].
  simpl. destruct (0 <? length (get_children x))%nat; [|intros [= <-]; tauto].
  intros H. inv_bind H as sc Hsc. inv_bind H as dc Hdc. injection H as <-.
  rewrite !all_permissions_unfold. unfold get_children at 2. simpl.
  intros [Hn Hch]%andb_true_iff. rewrite Hn. simpl.
  apply forallb_Forall. apply forallb_Forall in Hch.
  apply (sorted_Ok _ key_le_total key_le_trans) in Hsc as [Hperm _].
  rewrite Hperm in Hch. clear Hperm. apply mapM_Ok in Hdc.
  induction Hdc as [|a b l l' Hab _ IH']; constructor.
  - apply Forall_cons in Hch as [Ha _]. eapply IH; eassumption.
  - apply IH'. apply Forall_cons in Hch as [_ Hl]. exact Hl.
Qed.

Lemma extend_children_all_permissions (P : option pyval -> bool)
    (fragment removed merged : node) :
  extend_children fragment removed = Ok merged ->
  all_permissions P fragment = true -> all_permissions P removed = true ->
  all_permissions P merged = true.
Proof.
  unfold extend_children. rewrite (all_permissions_unfold P removed).
  unfold get_children.
  destruct (children removed) as [[|x l]|]; try (intros [= <-]; tauto).
  destruct fragment as [nm p f c [own|]]; [|discriminate].
  cbn [children]. intros [= <-] Hf [_ Hr]%andb_true_iff.
  cbn in Hf |- *. apply andb_true_iff in Hf as [-> Hown]. cbn.
  rewrite forallb_app, Hown. exact Hr.
Qed.

Lemma _resolve_template_all_permissions (P : option pyval -> bool)
    (register : list node) (depth : nat) :
  Forall (fun item => all_permissions P item = true) register ->
  forall x y,
    _resolve_template depth register x = Ok y ->
    all_permissions P x = true -> all_permissions P y = true.
Proof.
  intros Hreg. induction depth as [|depth IH]; intros x y; [discriminate|].
  rewrite _resolve_template_S, (all_permissions_unfold P x).
  unfold get_children.
  destruct x as [nm p f c [ch|]]; cbn [children permission].
  - intros H [Hp Hch]%andb_true_iff. inv_bind H as ch' Hch'.
    injection H as <-. cbn. rewrite Hp. cbn.
    apply forallb_Forall. apply forallb_Forall in Hch. apply mapM_Ok in Hch'.
    induction Hch' as [|a b l l' Hab _ IH']; [constructor|].
    apply Forall_cons in Hch as [Ha Hl]. constructor; [|exact (IH' Hl)].
    unfold resolve_child in Hab.
    destruct (char_in reference_indicator (name a)).
    + inv_bind Hab as fragment Hf. inv_bind Hab as merged Hm.
      apply (IH _ _ Hab).
      apply (extend_children_all_permissions P _ _ _ Hm); [|exact Ha].
      apply _get_in_register_Ok in Hf as (_ & Hin & _).
      exact (proj1 (Forall_forall _ _) Hreg _ Hin).
    + apply (IH _ _ Hab). exact Ha.
  - intros [= <-] H. cbn. exact H.
Qed.

Lemma _resolve_str_permissions (schema : node) :
  all_permissions str_permission schema = true ->
  forall path,
    Forall (fun e => int_permission e = false) (_resolve schema path).
Proof.
  induction schema as [nm p f c|nm p f c ch IH] using node_ind';
    intros Hall path; simpl; [constructor|].
  cbn in Hall. apply andb_true_iff in Hall as [_ Hch].
  apply forallb_Forall in Hch.
  induction IH as [|x ch Hx _ IHch]; simpl; [constructor|].
  apply Forall_cons in Hch as [Hxp Hch].
  constructor.
  - rewrite all_permissions_unfold in Hxp.
    apply andb_true_iff in Hxp as [Hxp _].
    unfold int_permission, new_entry. cbn.
    destruct (permission x) as [[z|s]|]; try discriminate. reflexivity.
  - apply Forall_app. split; [apply Hx, Hxp | exact (IHch Hch)].
Qed.

Lemma resolve_str_permissions (schema : node) :
  all_permissions str_permission schema = true ->
  Forall (fun e => int_permission e = false) (resolve schema).
Proof.
  intros Hall. unfold resolve. constructor.
  - rewrite all_permissions_unfold in Hall.
    apply andb_true_iff in Hall as [Hp _].
    unfold int_permission, new_entry. cbn.
    destruct (permission schema) as [[z|s]|]; try discriminate. reflexivity.
  - apply _resolve_str_permissions, Hall.
Qed.

Lemma _register_templates_permissions (depth : nat) :
  forall root items,
    _register_templates depth root = Ok items ->
    Forall (fun item => all_permissions str_permission item = true) items.
Proof.
  induction depth as [|depth IH]; intros root items; [discriminate|]. simpl.
  destruct root as [nm m data|nm m entries]; [intros [= <-]; constructor|].
  intros H. inv_bind H as sorted_entries Hs. inv_bind H as found Hf.
  injection H as <-. apply mapM_Ok in Hf. clear Hs.
  induction Hf as [|e o l l' He _ IH']; [constructor|].
  simpl. destruct (startswith (fs_name e) ".git").
  - injection He as <-. exact IH'.
  - destruct e as [nm' m' data'|nm' m' entries'].
    + injection He as <-. constructor; [reflexivity | exact IH'].
    + inv_bind He as ch Hch. injection He as <-.
      constructor; [|exact IH'].
      simpl. apply forallb_Forall. eapply IH, Hch.
Qed.

Lemma init_permissions (depth : nat) (templates : list fs_entry)
    (register : list node) :
  __init__ depth templates = Ok register ->
  Forall (fun item => all_permissions str_permission item = true) register.
Proof.
  unfold __init__. intros H. inv_bind H as raw Hraw. inv_bind H as done Hdone.
  apply (sorted_Ok _ str_le_total str_le_trans) in H as [Hperm _].
  rewrite <- Hperm. clear Hperm register.
  unfold register_templates in Hraw. apply mapM_Ok in Hraw, Hdone.
  revert done Hdone. induction Hraw as [|e item l raw He _ IH];
    intros done Hdone.
  - inversion Hdone. constructor.
  - inversion Hdone as [|? item' ? done' Hitem Hdone']; subst.
    constructor; [|exact (IH _ Hdone')].
    apply (sort_children_all_permissions _ _ _ _ Hitem).
    inv_bind He as ch Hch. injection He as <-.
    simpl. apply forallb_Forall. eapply _register_templates_permissions, Hch.
Qed.

Lemma resolve_template_str_permissions (depth : nat) (register : list node)
    (nm : string) (built : node) :
  Forall (fun item => all_permissions str_permission item = true) register ->
  resolve_template depth register nm = Ok built ->
  Forall (fun e => int_permission e = false) (resolve built).
Proof.
  intros Hreg H. unfold resolve_template in H.
  inv_bind H as root Hroot. inv_bind H as expanded Hexp.
  apply resolve_str_permissions.
  apply (sort_children_all_permissions _ _ _ _ H).
  apply (_resolve_template_all_permissions _ _ _ Hreg _ _ Hexp).
  apply _get_in_register_Ok in Hroot as (_ & Hin & _).
  exact (proj1 (Forall_forall _ _) Hreg _ Hin).
Qed.

Section BuildErrors.

Variable str_format_other : string -> list string -> dict -> result string.
Variable os_raises : list os_call -> os_call -> option os_exn.
Variable data : dict.

(** X18: For a template of a register read from the template folder, [build]
    never sets a mode: the permissions of the register are the strings
    [oct] printed, and [oct] of a string is a TypeError.  It is raised once
    every entry has been created, before the first [chmod]. *)
Theorem build_registered_raises (d depth : nat) (templates : list fs_entry)
    (register : list node) (nm root : string) (built : node) :
  __init__ d templates = Ok register ->
  resolve_template depth register nm = Ok built ->
  path_results_of str_format_other data built <> [] ->
  writes_benign os_raises ->
  build str_format_other os_raises depth register nm data (Some root)
  = (map (create_call root) (path_results_of str_format_other data built),
     Some (OtherError TypeError)).
Proof.
  intros Hinit Hb Hne Hw. unfold build.
  destruct (build_path_results str_format_other depth register nm data)
    as [[heap refs]|err] eqn:Hpr.
  - apply build_path_results_entries in Hpr as (built' & Hb' & ->).
    rewrite Hb in Hb'. injection Hb' as <-.
    pose proof (path_results_joined str_format_other data built) as Hj.
    pose proof (resolve_template_str_permissions _ _ _ _
                  (init_permissions _ _ _ Hinit) Hb) as Hstr.
    rewrite (build_create_benign os_raises root _ Hw Hj []). cbn [app].
    assert (Hperm : Forall (fun e => int_permission e = false)
                      (path_results_of str_format_other data built)).
    { apply Forall_forall. intros e He. unfold path_results_of in He.
      apply list_elem_of_fmap in He as (e0 & -> & He0).
      apply list_elem_of_filter in He0 as [_ He0].
      unfold int_permission. rewrite materialized_permission.
      exact (proj1 (Forall_forall _ _) Hstr _ He0). }
    destruct (reverse (path_results_of str_format_other data built))
      as [|e rest] eqn:Hrev.
    + apply (f_equal reverse) in Hrev. rewrite reverse_involutive in Hrev.
      contradiction.
    + assert (He : e ∈ path_results_of str_format_other data built)
        by (rewrite <- elem_of_reverse, Hrev; constructor).
      cbn [build_chmod].
      rewrite (path_join_joined _ _ (proj1 (Forall_forall _ _) Hj _ He)).
      cbv zeta. pose proof (proj1 (Forall_forall _ _) Hperm _ He) as Hs.
      unfold int_permission in Hs.
      destruct (e_permission e) as [z|s]; [discriminate|]. reflexivity.
  - unfold build_path_results in Hpr. rewrite Hb in Hpr. discriminate.
Qed.

(** X19: Without a root (the default), [build] raises AttributeError at the
    first entry, before any call to the operating system, unless the path
    of that entry is absolute. *)
Theorem build_without_root (depth : nat) (register : list node) (nm : string)
    (built : node) (e : entry) (rest : list entry) (s : string) :
  resolve_template depth register nm = Ok built ->
  path_results_of str_format_other data built = e :: rest ->
  e_path e = Joined s -> startswith s "/" = false ->
  build str_format_other os_raises depth register nm data None
  = ([], Some (OtherError AttributeError)).
Proof.
  intros Hb Hres Hpath Hrel. unfold build.
  destruct (build_path_results str_format_other depth register nm data)
    as [[heap refs]|err] eqn:Hpr.
  - apply build_path_results_entries in Hpr as (built' & Hb' & ->).
    rewrite Hb in Hb'. injection Hb' as <-. rewrite Hres.
    cbn [build_create]. rewrite Hpath. unfold path_join. rewrite Hrel.
    reflexivity.
  - unfold build_path_results in Hpr. rewrite Hb in Hpr. discriminate.
Qed.

End BuildErrors.

(** ** Parsing, then building *)

Lemma longest_first_Some {A} (n : nat) (f : nat -> option A) (r : A) :
  longest_first n f = Some r ->
  exists k, (1 <= k <= n)%nat /\ f k = Some r.
Proof.
  induction n as [|n IH]; [discriminate|]. cbn [longest_first].
  destruct (f (S n)) as [r'|] eqn:Hf.
  - intros [= <-]. exists (S n). split; [lia | exact Hf].
  - intros H. destruct (IH H) as (k & Hk & Hfk). exists k. split; [lia | exact Hfk].
Qed.

Lemma str_take_drop (k : nat) (s : string) :
  (str_take k s ++ str_drop k s)%string = s.
Proof.
  revert s. induction k as [|k IH]; intros [|a s]; try reflexivity.
  cbn [str_take str_drop]. rewrite str_app_cons, IH. reflexivity.
Qed.

Lemma run_length_take (ranges : list (ascii * ascii)) (k : nat) (s : string) :
  (1 <= k <= run_length ranges s)%nat ->
  str_take k s <> "" /\ str_forallb (in_class ranges) (str_take k s) = true.
Proof.
  revert s. induction k as [|k IH]; intros s Hk; [lia|].
  destruct s as [|a s]; [simpl in Hk; lia|].
  cbn [run_length] in Hk. destruct (in_class ranges a) eqn:Ha; [|lia].
  cbn [str_take str_forallb]. rewrite Ha. split; [discriminate|].
  destruct k as [|k]; [reflexivity|].
  apply (IH s). lia.
Qed.

(** A match leaves the groups of other names as they were. *)
Lemma re_items_match_frame (items : list re_item) :
  forall s g d k,
    re_items_match items s g = Some d ->
    k ∉ group_names items -> d !! k = g !! k.
Proof.
  induction items as [|[c| |nm ranges] items IH]; intros s g d k H Hk.
  - injection H as <-. reflexivity.
  - cbn [re_items_match] in H. destruct s as [|a s]; [discriminate|].
    destruct (ascii_eqb a c); [|discriminate]. eapply IH; eassumption.
  - cbn [re_items_match] in H. destruct s as [|a s]; [discriminate|].
    destruct (ascii_eqb a newline); [discriminate|]. eapply IH; eassumption.
  - cbn [re_items_match] in H.
    apply longest_first_Some in H as (n & _ & H).
    change (group_names (RGroup nm ranges :: items))
      with (nm :: group_names items) in Hk.
    apply not_elem_of_cons in Hk as [Hne Hk].
    rewrite (IH _ _ _ _ H Hk). apply lookup_insert_ne. congruence.
Qed.

Lemma re_match_literal_sound (lit : string) :
  char_in "." lit = false ->
  forall items s g d,
    re_items_match (literal_items lit ++ items) s g = Some d ->
    exists rest, s = (lit ++ rest)%string /\
                 re_items_match items rest g = Some d.
Proof.
  induction lit as [|c lit IH]; intros Hdot items s g d H.
  - exists s. split; [reflexivity | exact H].
  - cbn [char_in] in Hdot. apply orb_false_iff in Hdot as [Hc Hdot].
    unfold literal_items in H. cbn [list_ascii_of_string map app] in H.
    rewrite Hc in H. cbn [re_items_match] in H.
    destruct s as [|a s]; [discriminate|].
    destruct (ascii_eqb a c) eqn:Hac; [|discriminate].
    apply Ascii.eqb_eq in Hac as ->.
    destruct (IH Hdot _ _ _ _ H) as (rest & -> & Hrest).
    exists rest. split; [reflexivity | exact Hrest].
Qed.

Lemma re_match_segment_sound (x : string) (items : list re_item)
    (s : string) (g d : dict) :
  dot_free x = true ->
  (char_in "+" x = true -> split_1 x ∉ group_names items) ->
  re_items_match (general_segment_items x ++ items) s g = Some d ->
  exists rest g',
    s = (substitute d x ++ rest)%string /\
    re_items_match items rest g' = Some d /\
    data_fits d [x] = true.
Proof.
  unfold dot_free, general_segment_items, substitute, data_fits, required_keys.
  cbn [List.filter]. destruct (char_in "+" x); cbn [orb]; intros Hdot Hk H.
  - cbn [app re_items_match] in H.
    apply longest_first_Some in H as (n & Hn & H).
    pose proof (re_items_match_frame _ _ _ _ _ H (Hk eq_refl)) as Hd.
    rewrite lookup_insert_eq in Hd.
    destruct (run_length_take _ _ _ Hn) as [Hne Hclass].
    exists (str_drop n s), (<[split_1 x := str_take n s]> g).
    rewrite Hd. change (default "" (Some (str_take n s))) with (str_take n s).
    split; [symmetry; apply str_take_drop|]. split; [exact H|].
    cbn [map forallb]. unfold value_fits. rewrite Hd, Hclass.
    destruct (String.eqb_spec (str_take n s) "") as [Heq|_];
      [contradiction | reflexivity].
  - apply negb_true_iff in Hdot.
    destruct (re_match_literal_sound x Hdot _ _ _ _ H) as (rest & -> & Hrest).
    exists rest, g. split; [reflexivity|]. split; [exact Hrest | reflexivity].
Qed.

Lemma required_keys_cons (x : string) (l : list string) :
  required_keys (x :: l)
  = (if char_in "+" x then [split_1 x] else []) ++ required_keys l.
Proof. unfold required_keys. cbn [List.filter]. destruct (char_in "+" x); reflexivity. Qed.

Lemma re_match_path_sound (segs : list string) :
  forallb dot_free segs = true ->
  NoDup (required_keys segs) ->
  forall s g d,
    re_items_match (general_path_items segs) s g = Some d ->
    exists rest,
      s = (join os_sep (map (substitute d) segs) ++ rest)%string /\
      data_fits d segs = true.
Proof.
  induction segs as [|x l IH]; intros Hdot Hnd s g d H.
  - exists s. split; reflexivity.
  - cbn [forallb] in Hdot. apply andb_true_iff in Hdot as [Hx Hl].
    assert (Hfresh : char_in "+" x = true ->
                     split_1 x ∉ required_keys l).
    { intros Hvar. rewrite required_keys_cons, Hvar in Hnd.
      apply NoDup_cons in Hnd as [Hnin _]. exact Hnin. }
    assert (Hnd' : NoDup (required_keys l)).
    { rewrite required_keys_cons in Hnd. apply NoDup_app in Hnd as (_ & _ & Hnd).
      exact Hnd. }
    rewrite data_fits_cons. destruct l as [|y l].
    + cbn [general_path_items] in H.
      rewrite <- (app_nil_r (general_segment_items x)) in H.
      apply re_match_segment_sound in H as (rest & g' & -> & _ & Hfit);
        [|exact Hx | intros _; apply not_elem_of_nil].
      exists rest. split; [reflexivity|]. rewrite Hfit. reflexivity.
    + change (general_path_items (x :: y :: l))
        with (general_segment_items x
              ++ RChar "/" :: general_path_items (y :: l)) in H.
      apply re_match_segment_sound in H as (rest & g' & -> & H & Hfit);
        [|exact Hx|].
      * cbn [re_items_match] in H. destruct rest as [|a rest]; [discriminate|].
        destruct (ascii_eqb a "/") eqn:Ha; [|discriminate].
        apply Ascii.eqb_eq in Ha as ->.
        destruct (IH Hl Hnd' _ _ _ H) as (rest' & -> & Hfits).
        exists rest'. split; [|rewrite Hfit, Hfits; reflexivity].
        change (map (substitute d) (x :: y :: l))
          with (substitute d x :: map (substitute d) (y :: l)).
        change (join os_sep (substitute d x :: map (substitute d) (y :: l)))
          with (substitute d x
                ++ String "/" (join os_sep (map (substitute d) (y :: l))))%string.
        rewrite str_app_assoc, str_app_cons. reflexivity.
      * change (group_names (RChar "/" :: general_path_items (y :: l)))
          with (group_names (general_path_items (y :: l))).
        rewrite group_names_general_path. exact Hfresh.
Qed.

Section ParseSound.

Variable str_format_other : string -> list string -> dict -> result string.
Variable re_match_other : string -> string -> result (option dict).

(** X21: What [parse] returns can be built again: for a template whose paths
    hold identifiers as variables, no name twice in a path, and literal
    segments of plain characters without '.', every dict of the result is
    made of exactly the variables of one entry of the template, with values
    their groups match, and the path [_to_path] writes for that entry with
    that dict is the start of the parsed string.  It need not be all of it:
    the match is not anchored at the end. *)
Theorem parse_sound (depth : nat) (register : list node) (path nm : string)
    (built : node) (results : list dict) (d : dict) :
  resolve_template depth register nm = Ok built ->
  Forall (fun segs => strict_path segs = true) (flattened_paths built) ->
  parse str_format_other re_match_other depth register path nm = Ok results ->
  d ∈ results ->
  exists e rest,
    e ∈ resolve built /\
    (forall k, is_Some (d !! k) <-> k ∈ required_keys (segments e)) /\
    data_fits d (segments e) = true /\
    path_string str_format_other d e
    = Ok (join os_sep (map (substitute d) (segments e))) /\
    path = (join os_sep (map (substitute d) (segments e)) ++ rest)%string.
Proof.
  intros Hbuilt Hpaths H Hd.
  rewrite (parse_unfold _ _ _ _ _ _ _ Hbuilt) in H.
  inv_bind H as matched Hloop. injection H as <-.
  rewrite elem_of_reverse, <- list_sort_perm in Hd.
  destruct (parse_loop_results str_format_other _ _ _ _ _ Hloop) as [Hin _].
  apply Hin in Hd as [Hd|(_ & p & Hp & Hm)];
    [apply elem_of_nil in Hd; contradiction|].
  apply list_elem_of_fmap in Hp as (e & -> & He).
  unfold flattened_paths in Hpaths. rewrite Forall_map in Hpaths.
  pose proof (proj1 (Forall_forall _ _) Hpaths _ He) as Hstrict.
  unfold strict_path in Hstrict.
  apply andb_true_iff in Hstrict as [Hgen Hdot].
  unfold parser_path in Hm. rewrite (re_match_general _ _ _ Hgen) in Hm.
  injection Hm as Hm.
  pose proof Hgen as Hgen'. unfold general_path in Hgen'.
  apply andb_true_iff in Hgen' as [[Hsegs Hnd]%andb_true_iff _].
  apply bool_decide_eq_true_1 in Hnd.
  destruct (re_match_path_sound _ Hdot Hnd _ _ _ Hm) as (rest & Hpath & Hfits).
  exists e, rest. repeat split.
  - exact He.
  - intros Hk. destruct (decide (k ∈ required_keys (segments e))) as [Hin'|Hnin];
      [exact Hin'|].
    rewrite <- group_names_general_path in Hnin.
    rewrite (re_items_match_frame _ _ _ _ _ Hm Hnin), lookup_empty in Hk.
    destruct Hk as [v Hv]. discriminate.
  - intros Hk. unfold data_fits in Hfits.
    pose proof (proj1 (Forall_forall _ _)
                  (proj1 (forallb_Forall _ _) Hfits) _ Hk) as Hfit.
    rewrite (value_fits_Some _ _ Hfit). eexists. reflexivity.
  - exact Hfits.
  - pose proof (path_string_plain str_format_other d e) as Hs.
    assert (Hkeys : keys_present d (segments e) = true)
      by (apply data_fits_keys_present; exact Hfits).
    rewrite Hkeys in Hs. apply Hs.
    unfold plain_entry. apply forallb_Forall in Hsegs.
    eapply Forall_impl; [exact Hsegs|]. apply general_segment_format_plain.
  - exact Hpath.
Qed.

End ParseSound.

(** * The theorems at concrete inputs *)

(** C1 as stated fails: 'show' is registered, [resolve_template] returns,
    and the tree it returns holds the name '@seq@'. *)
Lemma residual_marker_counterexample :
  registered duplicate_register "show" = true /\
  exists t,
    resolve_template 4 duplicate_register "show" = Ok t /\
    reference_free t = false.
Proof. split; [reflexivity|]. eexists. split; vm_compute; reflexivity. Qed.



(** The amended C1 on the example register. *)
Lemma resolve_template_markers_witness :
  resolve_template 4 example_register "@+show+@" = Ok example_built /\
  all_names (fun n => unmarked n || registered example_register n) example_built
  = true /\
  Forall unmarked_path (resolve example_built).
Proof.
  split; [vm_compute; reflexivity|].
  apply (resolve_template_markers 4 example_register "@+show+@").
  vm_compute. reflexivity.
Defined.

(** C3 on the example register. *)
Lemma resolve_template_sorted_witness :
  resolve_template 4 example_register "@+show+@" = Ok example_built /\
  tree_sorted example_built.
Proof.
  split; [vm_compute; reflexivity|].
  apply (resolve_template_sorted 4 example_register "@+show+@").
  vm_compute. reflexivity.
Defined.

(** C4 on the example register: the placeholder '@seq@' with the local child
    X, in second position, becomes the fragment with children A, B, X. *)
Lemma reference_merge_witness :
  exists expanded,
    get_children example_expanded !! 1%nat = Some expanded /\
    expanded = dir "@seq@" [dir "A" []; dir "B" []; dir "X" []].
Proof.
  destruct (reference_merge 3 example_register example_show example_expanded
              (dir "@seq@" [dir "X" []]) example_seq
              [file "readme.txt" "hello"] [dir "Zeta" []; dir "alpha" []]
              [dir "A" []; dir "B" []])
    as (expanded & Hat & _ & _ & _ & _ & Hfree);
    [reflexivity | reflexivity | reflexivity | reflexivity
     | vm_compute; reflexivity |].
  exists expanded. split; [exact Hat|]. apply Hfree. reflexivity.
Defined.




(** C10 on the same three entries. *)
Lemma to_path_in_place_witness :
  snd example_materialized
  = filter (fun r => kept no_format_other example_data example_heap r = true)
      [0; 1; 2]%nat /\
  sublist (snd example_materialized) [0; 1; 2]%nat /\
  length (fst example_materialized) = length example_heap /\
  (forall r, r ∈ snd example_materialized ->
     exists e final_path,
       example_heap !! r = Some e /\
       path_string no_format_other example_data e = Ok final_path /\
       fst example_materialized !! r
       = Some (Entry (Joined final_path) (e_permission e) (e_folder e)
                     (e_content e))) /\
  (forall r, r ∉ snd example_materialized ->
     fst example_materialized !! r = example_heap !! r).
Proof.
  apply (to_path_in_place no_format_other example_data example_heap
           (fst example_materialized) [0; 1; 2]%nat (snd example_materialized)).
  - apply (NoDup_seq 0 3).
  - vm_compute. reflexivity.
Defined.



(** * Further theorems at concrete inputs *)

(** A placeholder without a template: the lookup error of '@nope@'. *)
Lemma missing_reference_raises_witness :
  _resolve_template 3 example_register
    (dir "show" [dir "a" []; dir "@nope@" []])
  = Raise (KeyError "template @nope@ not found in register").
Proof.
  apply (missing_reference_raises 2 example_register
           (dir "show" [dir "a" []; dir "@nope@" []]) (dir "@nope@" [])
           [dir "a" []] [dir "a" []] []).
  - reflexivity.
  - vm_compute. reflexivity.
  - reflexivity.
  - reflexivity.
Defined.

(** No template 'nope' in the example register. *)
Lemma unknown_template_raises_witness :
  let e := KeyError "template nope not found in register" in
  resolve_template 4 example_register "nope" = Raise e /\
  (forall startwith contains endswith,
     find_path 4 example_register startwith contains endswith "nope" = Raise e) /\
  (forall path, parse no_format_other no_re_other 4 example_register path "nope"
                = Raise e) /\
  (forall data, build_path_results no_format_other 4 example_register "nope" data
                = Raise e).
Proof.
  apply (unknown_template_raises no_format_other no_re_other 4 example_register
           "nope").
  reflexivity.
Defined.

(** A fragment that holds its own placeholder, with room for fifty nested
    calls. *)
Lemma self_reference_never_resolves_witness :
  exists e, resolve_template 50 loop_register "@loop@" = Raise e.
Proof.
  apply (self_reference_never_resolves 50 loop_register "@loop@"
           (dir "@loop@" [dir "@loop@" []])).
  - reflexivity.
  - reflexivity.
  - exists (dir "@loop@" []). split; [constructor | reflexivity].
Defined.

(** The entry of 'seq/A' comes after that of 'seq'. *)
Lemma resolve_parent_before_child_witness :
  exists e' s,
    e' ∈ take 3 (resolve example_built) /\
    ["+show+"; "seq"; "A"] = segments e' ++ [s].
Proof.
  apply (resolve_parent_before_child example_built
           (take 3 (resolve example_built)) (drop 4 (resolve example_built))
           (Entry (Segments ["+show+"; "seq"; "A"]) (PyStr "0755") true "")).
  - vm_compute. reflexivity.
  - vm_compute. discriminate.
Defined.

(** The sort of the expanded example tree. *)
Lemma sort_children_same_entries_witness :
  Permutation (resolve example_built) (resolve example_expanded).
Proof.
  apply (sort_children_same_entries 4 example_expanded example_built).
  vm_compute. reflexivity.
Defined.

Lemma sort_children_idempotent_witness :
  sort_children 4 example_built = Ok example_built.
Proof.
  apply (sort_children_idempotent 4 example_expanded example_built).
  vm_compute. reflexivity.
Defined.

(** The register read from the example folder. *)
Lemma init_register_sorted_witness :
  StronglySorted register_name_le example_init /\
  Forall tree_sorted example_init.
Proof.
  apply (init_register_sorted 4 example_folder example_init).
  vm_compute. reflexivity.
Defined.

Lemma init_registers_every_entry_witness :
  Permutation (map template_fields example_init)
              (map entry_fields example_folder) /\
  Forall (fun item => is_Some (children item)) example_init.
Proof.
  apply (init_registers_every_entry 4 example_folder example_init).
  vm_compute. reflexivity.
Defined.

Lemma init_skips_nested_git_witness :
  Forall (fun item => forallb (all_names not_git) (get_children item) = true)
         example_init.
Proof.
  apply (init_skips_nested_git 4 example_folder example_init).
  vm_compute. reflexivity.
Defined.

(** An empty token among the wanted ones. *)
Lemma find_path_empty_token_witness :
  find_path 4 example_register None (Some ["seq"; ""]) None "@+show+@"
  = Raise TypeError.
Proof.
  apply (find_path_empty_token 4 example_register None None ["seq"; ""]
           "@+show+@" example_built).
  - vm_compute. reflexivity.
  - repeat constructor.
Defined.

Lemma find_path_no_filter_witness :
  find_path 4 example_register None None None "@+show+@"
  = Ok (Some ["+show+"]).
Proof.
  apply (find_path_no_filter 4 example_register "@+show+@" example_built).
  vm_compute. reflexivity.
Defined.

(** Parsing the path of 'X' against the example template. *)
Lemma parse_results_witness :
  NoDup [example_data] /\
  forall d, d ∈ [example_data] <->
    d <> ∅ /\
    exists e, e ∈ resolve example_built /\
              re_match no_re_other (parser_path e) "rex/seq/X" = Ok (Some d).
Proof.
  apply (parse_results no_format_other no_re_other 4 example_register
           "rex/seq/X" "@+show+@" example_built [example_data]).
  - vm_compute. reflexivity.
  - vm_compute. reflexivity.
Defined.

(** The joined path 'project', given to [_to_path] once more. *)
Lemma to_path_again_witness :
  _to_path no_format_other (fst example_materialized) [0%nat] example_data
  = (<[0%nat := Entry (Joined "p/r/o/j/e/c/t") (PyStr "0755") true ""]>
       (fst example_materialized), [0%nat]).
Proof.
  apply (to_path_again no_format_other example_data
           (fst example_materialized) 0
           (Entry (Joined "project") (PyStr "0755") true "") "project").
  - reflexivity.
  - reflexivity.
  - reflexivity.
Defined.

Lemma failing_os_writes : writes_benign failing_os.
Proof. intros trace path content. right. reflexivity. Qed.

Lemma failing_os_chmods : chmods_benign failing_os.
Proof. intros trace path mode. split; [reflexivity | right; reflexivity]. Qed.

(** A template with int permissions, on an operating system where every
    call fails: all the calls are made all the same. *)
Lemma build_creates_then_chmods_witness :
  build no_format_other failing_os 4 int_register "proj" example_data
    (Some "/tmp/out/")
  = ([Makedirs "/tmp/out/proj"; WriteFile "/tmp/out/proj/a.txt" "hi";
      Makedirs "/tmp/out/proj/rex";
      Realpath "/tmp/out/proj/rex"; Chmod "/tmp/out/proj/rex" (PyInt 493);
      Realpath "/tmp/out/proj/a.txt"; Chmod "/tmp/out/proj/a.txt" (PyInt 777);
      Realpath "/tmp/out/proj"; Chmod "/tmp/out/proj" (PyInt 777)],
     None).
Proof.
  apply (build_creates_then_chmods no_format_other failing_os example_data 4
           int_register "proj" "/tmp/out/" int_built).
  - vm_compute. reflexivity.
  - repeat constructor.
  - exact failing_os_writes.
  - exact failing_os_chmods.
Defined.

(** The template read from the example folder: three entries created, then
    the TypeError. *)
Lemma build_registered_raises_witness :
  build no_format_other failing_os 4 example_init "@+show+@" example_data
    (Some "/tmp/out")
  = ([Makedirs "/tmp/out/rex"; Makedirs "/tmp/out/rex/shots";
      WriteFile "/tmp/out/rex/readme.txt" "hello"],
     Some (OtherError TypeError)).
Proof.
  apply (build_registered_raises no_format_other failing_os example_data 4 4
           example_folder example_init "@+show+@" "/tmp/out" example_init_built).
  - vm_compute. reflexivity.
  - vm_compute. reflexivity.
  - vm_compute. discriminate.
  - exact failing_os_writes.
Defined.

(** The example template, built without a root. *)
Lemma build_without_root_witness :
  build no_format_other failing_os 4 example_register "@+show+@" example_data
    None
  = ([], Some (OtherError AttributeError)).
Proof.
  apply (build_without_root no_format_other failing_os example_data 4
           example_register "@+show+@" example_built
           (Entry (Joined "rex") (PyStr "0755") true "")
           (tail (path_results_of no_format_other example_data example_built))
           "rex").
  - vm_compute. reflexivity.
  - vm_compute. reflexivity.
  - reflexivity.
  - reflexivity.
Defined.

Lemma shot_paths_general :
  Forall (fun segs => general_path segs = true) (flattened_paths shot_built).
Proof. apply forallb_Forall. vm_compute. reflexivity. Qed.

(** Three variables: the path of the shot folder, built and parsed back. *)
Lemma round_trip_general_witness :
  exists heap path_results final_path results d,
    build_path_results no_format_other 4 shot_register "+show+" shot_data
    = Ok (heap, path_results) /\
    2%nat ∈ path_results /\
    final_path = "rex/anim/sh010" /\
    e_path <$> heap !! 2%nat = Some (Joined final_path) /\
    parse no_format_other no_re_other 4 shot_register final_path "+show+"
    = Ok results /\
    d ∈ results /\
    forall k, d !! k = if bool_decide (k ∈ ["show"; "department"; "shot"])
                       then shot_data !! k else None.
Proof.
  apply (round_trip_general no_format_other no_re_other shot_data 4
           shot_register "+show+" shot_built 2
           (Entry (Segments ["+show+"; "+department+"; "+shot+"])
                  (PyStr "0755") true "")).
  - vm_compute. reflexivity.
  - exact shot_paths_general.
  - reflexivity.
  - vm_compute. reflexivity.
  - discriminate.
Defined.

Lemma shot_paths_strict :
  Forall (fun segs => strict_path segs = true) (flattened_paths shot_built).
Proof. apply forallb_Forall. vm_compute. reflexivity. Qed.

(** A string that goes on after the path of the shot folder. *)
Lemma parse_sound_witness :
  exists e rest,
    e ∈ resolve shot_built /\
    (forall k, is_Some (shot_parsed !! k) <-> k ∈ required_keys (segments e)) /\
    data_fits shot_parsed (segments e) = true /\
    path_string no_format_other shot_parsed e
    = Ok (join os_sep (map (substitute shot_parsed) (segments e))) /\
    "rex/anim/sh010-v2"
    = (join os_sep (map (substitute shot_parsed) (segments e)) ++ rest)%string.
Proof.
  apply (parse_sound no_format_other no_re_other 4 shot_register
           "rex/anim/sh010-v2" "+show+" shot_built shot_results shot_parsed).
  - vm_compute. reflexivity.
  - exact shot_paths_strict.
  - vm_compute. reflexivity.
  - constructor.
Defined.

(** The fragment '@seq@' of the example register holds no placeholder. *)
Lemma resolve_template_without_references_witness :
  sort_children 4 example_seq = Ok example_seq /\
  forall other, _get_in_register other "@seq@" = Ok example_seq ->
                resolve_template 4 other "@seq@" = Ok example_seq.
Proof.
  apply (resolve_template_without_references 4 example_register "@seq@"
           example_seq example_seq).
  - reflexivity.
  - reflexivity.
  - vm_compute. reflexivity.
Defined.
